(** * QueueCTL: the job store of [job_queue.py] and its retry policy

    A shallow embedding of the SQLite-backed job queue: [config.py]
    (class [Config]), [job_queue.py] (class [JobQueue], [iso]), the worker
    registry and the loop of [worker.py], and the [enqueue] command of
    [cli.py].  Left out: opening the database, argument parsing and
    printing, [get_float], and the spawning of processes by
    [WorkerManager]; the loop is that of one worker, which reads the stop
    file, the clock and the outcome of each command from outside.

    Modelling conventions.
    - The [jobs] table is the list of its rows in rowid (insertion) order.
      An SQL [UPDATE ... WHERE c] rewrites every row satisfying [c] and
      reports how many it touched; [SELECT ... ORDER BY created_at LIMIT 1]
      returns the first row, in rowid order, of least [created_at] (SQL
      leaves the choice among rows of equal [created_at] open).
    - A timestamp column holds a string produced by [iso], which, for the
      years 1000 to 9999, is fixed-width and therefore ordered, as text,
      like the instant it denotes.  A timestamp is modelled by that
      instant, in microseconds (the resolution of [datetime]); timestamps
      supplied in a payload are taken to be in the same format.
    - Python integers are [Z].  An instant is counted from
      1970-01-01T00:00:00; [datetime] reaches from the first microsecond
      of year 1 to the last of year 9999, [timedelta] 999999999 days
      either way, and arithmetic that leaves them raises [OverflowError].
      An [INTEGER] parameter has to fit in 64 bits and a [TEXT] parameter
      has to encode in UTF-8, or binding it raises and the statement does
      not run.
    - A configuration value is modelled by the integer [int()] reads from it.
    - [id] and [command] are opaque text compared for equality only, kept
      as [string]; an error message is a Python [str], a sequence of code
      points, kept as [list N] so that slicing and encoded size can both be
      expressed. *)

From Stdlib Require Import ZArith List String Ascii Bool Lia DecimalString.
From Stdlib Require Import Sorted Permutation NArith DecimalZ DecimalPos.
Import ListNotations.
Open Scope Z_scope.

(** ** Python runtime functions the source calls but does not define *)

Class PyRuntime := {
  (** [int(now.timestamp() * 1000)] for the datetime [now]: depends on the
      local time zone of the process and on float rounding. *)
  timestamp_ms : Z -> Z;
  (** [b ** e] in microseconds, as [timedelta] rounds it, for [e < 0],
      where Python evaluates the power in floating point; [None] when the
      conversion of [b] to a float raises [OverflowError]. *)
  float_pow_us : Z -> Z -> option Z
}.

(** [x or d] on an optional integer: [None] and [0] are falsy. *)
Definition py_or (x : option Z) (d : Z) : Z :=
  match x with
  | Some v => if v =? 0 then d else v
  | None => d
  end.

(** A Python [str] as its code points, and the size of its UTF-8 encoding. *)
Definition text := list N.

Definition utf8_len (c : N) : nat :=
  if (c <? 128)%N then 1%nat
  else if (c <? 2048)%N then 2%nat
  else if (c <? 65536)%N then 3%nat
  else 4%nat.

Definition utf8_size (t : text) : nat :=
  fold_right (fun c n => (utf8_len c + n)%nat) 0%nat t.

(** A code point UTF-8 has an encoding for: any but the surrogates
    U+D800 to U+DFFF, up to U+10FFFF. *)
Definition scalar (c : N) : bool :=
  ((c <? 55296) || ((57343 <? c) && (c <=? 1114111)))%N.

Definition encodable (t : text) : bool := forallb scalar t.

(** ** Ranges of the types the source computes with *)

Definition within (lo hi x : Z) : bool := (lo <=? x) && (x <=? hi).

(** [datetime.min] and [datetime.max]: 0001-01-01T00:00:00 and
    9999-12-31T23:59:59.999999. *)
Definition datetime_min : Z := -62135596800000000.
Definition datetime_max : Z := 253402300799999999.

(** [timedelta.min] and [timedelta.max]. *)
Definition timedelta_min : Z := -86399999913600000000.
Definition timedelta_max : Z := 86399999999999999999.

(** What an SQLite [INTEGER] holds. *)
Definition int64 (z : Z) : bool :=
  within (-9223372036854775808) 9223372036854775807 z.

(** ** config.py *)

Module Config.

(** The [config(key PRIMARY KEY, value)] table. *)
Definition table := list (string * Z).

Definition DEFAULTS : table :=
  [ ("max_retries"%string, 3);
    ("backoff_base"%string, 2);
    ("worker_poll_interval"%string, 1);
    ("worker_heartbeat_interval"%string, 2) ].

Fixpoint lookup (key : string) (t : table) : option Z :=
  match t with
  | [] => None
  | (k, v) :: t' => if String.eqb k key then Some v else lookup key t'
  end.

Definition get (cfg : table) (key : string) : option Z :=
  match lookup key cfg with
  | Some v => Some v
  | None => lookup key DEFAULTS
  end.

Definition get_int (cfg : table) (key : string) : option Z :=
  match get cfg key with
  | Some v => Some v
  | None => None
  end.

(** [INSERT ... ON CONFLICT(key) DO UPDATE SET value = excluded.value]:
    the row of the key is rewritten where it stands, a new key is added
    at the end. *)
Fixpoint set (cfg : table) (key : string) (value : Z) : table :=
  match cfg with
  | [] => [(key, value)]
  | (k, v) :: cfg' =>
      if String.eqb k key then (k, value) :: cfg'
      else (k, v) :: set cfg' key value
  end.

Definition keys (cfg : table) : list string := map fst cfg.

End Config.

(** ** job_queue.py: the data model *)

Inductive job_state := pending | processing | completed | failed | dead.

Definition job_state_eqb (a b : job_state) : bool :=
  match a, b with
  | pending, pending | processing, processing | completed, completed
  | failed, failed | dead, dead => true
  | _, _ => false
  end.

(** A row of the [jobs] table, which is also the dict [enqueue] and
    [reserve_job] return. *)
Record job := mkJob {
  id : string;
  command : string;
  state : job_state;
  attempts : Z;
  max_retries : Z;
  created_at : Z;
  updated_at : Z;
  next_run_at : Z;
  last_error : option text
}.

Definition store := list job.

(** The [job_payload] dict of [enqueue]; [None] is an absent key. *)
Record payload := mkPayload {
  p_id : option string;
  p_command : option string;
  p_max_retries : option Z;
  p_attempts : option Z;
  p_created_at : option Z;
  p_updated_at : option Z;
  p_last_error : option text
}.

(** Exceptions raised: [job_payload["command"]] on a dict without that
    key, the [INSERT] on a primary key already present, the exit of
    [cli.py] on a payload without [command], a [timedelta] or [datetime]
    out of range or an integer parameter beyond 64 bits, and a text
    parameter with a lone surrogate. *)
Inductive exn :=
| KeyError (key : string)
| IntegrityError
| SystemExit (message : string)
| OverflowError
| UnicodeEncodeError.

(** Raising and returning, and running a computation after another that
    returned. *)
Definition fallible (A : Type) : Type := (exn + A)%type.

Definition bind {A B} (x : fallible A) (f : A -> fallible B) : fallible B :=
  match x with
  | inl e => inl e
  | inr a => f a
  end.

Notation "'do' x <- e ; k" := (bind e (fun x => k))
  (at level 10, x pattern, e at level 100, k at level 200).

(** Binding the parameters of a statement, in their order. *)
Definition bind_int (z : Z) : fallible unit :=
  if int64 z then inr tt else inl OverflowError.

Definition bind_text (x : option text) : fallible unit :=
  match x with
  | Some t => if encodable t then inr tt else inl UnicodeEncodeError
  | None => inr tt
  end.

(** ** SQL statements *)

Definition sql_update (c : job -> bool) (f : job -> job) (s : store)
  : store * nat :=
  (map (fun j => if c j then f j else j) s, List.length (filter c s)).

(** Of two rows, the one [ORDER BY created_at] puts first; [j] precedes
    [k] in the table. *)
Definition older (j k : job) : job :=
  if created_at k <? created_at j then k else j.

Fixpoint first_by_created_at (rows : list job) : option job :=
  match rows with
  | [] => None
  | j :: rows' =>
      match first_by_created_at rows' with
      | Some k => Some (older j k)
      | None => Some j
      end
  end.

(** [SELECT * FROM jobs WHERE c ORDER BY created_at LIMIT 1]. *)
Definition sql_select_first (c : job -> bool) (s : store) : option job :=
  first_by_created_at (filter c s).

Definition has_id (job_id : string) (j : job) : bool :=
  String.eqb (id j) job_id.

(** ** job_queue.py: iso *)

(** A naive [datetime], field by field. *)
Record datetime := mkDatetime {
  year : N;
  month : N;
  day : N;
  hour : N;
  minute : N;
  second : N;
  microsecond : N
}.

Definition digit (d : N) : ascii := ascii_of_N (48 + d).

(** The last [width] decimal digits of [n], zero-padded, in front of
    [rest]. *)
Fixpoint digits (width : nat) (n : N) (rest : string) : string :=
  match width with
  | O => rest
  | S w => digits w (n / 10) (String (digit (n mod 10)) rest)
  end.

(** The directives [ISO_FMT] uses; [strftime] pads each field with zeros
    to its width (for [%Y] below the year 1000 the padding depends on the
    C library, and [utcnow] never gets there). *)
Definition directive (c : ascii) (dt : datetime) (rest : string) : string :=
  if Ascii.eqb c "Y" then digits 4 (year dt) rest
  else if Ascii.eqb c "m" then digits 2 (month dt) rest
  else if Ascii.eqb c "d" then digits 2 (day dt) rest
  else if Ascii.eqb c "H" then digits 2 (hour dt) rest
  else if Ascii.eqb c "M" then digits 2 (minute dt) rest
  else if Ascii.eqb c "S" then digits 2 (second dt) rest
  else if Ascii.eqb c "f" then digits 6 (microsecond dt) rest
  else String "%" (String c rest).

Fixpoint strftime (fmt : string) (dt : datetime) : string :=
  match fmt with
  | EmptyString => EmptyString
  | String c fmt' =>
      match fmt' with
      | String d fmt'' =>
          if Ascii.eqb c "%" then directive d dt (strftime fmt'' dt)
          else String c (strftime fmt' dt)
      | EmptyString => String c EmptyString
      end
  end.

Definition ISO_FMT : string := "%Y-%m-%dT%H:%M:%S.%fZ".

Definition iso (dt : datetime) : string := strftime ISO_FMT dt.

(** The fields within the widths [ISO_FMT] prints them at, the year with
    all four digits. *)
Definition printable (dt : datetime) : bool :=
  ((1000 <=? year dt) && (year dt <? 10000) && (month dt <? 100)
   && (day dt <? 100) && (hour dt <? 100) && (minute dt <? 100)
   && (second dt <? 100) && (microsecond dt <? 1000000))%N.

(** The order of naive datetimes: field by field, the year first. *)
Definition then_compare (c : comparison) (next : comparison) : comparison :=
  match c with
  | Eq => next
  | _ => c
  end.

Definition datetime_compare (a b : datetime) : comparison :=
  then_compare (year a ?= year b)%N
    (then_compare (month a ?= month b)%N
       (then_compare (day a ?= day b)%N
          (then_compare (hour a ?= hour b)%N
             (then_compare (minute a ?= minute b)%N
                (then_compare (second a ?= second b)%N
                   (microsecond a ?= microsecond b)%N))))).

(** ** JobQueue.enqueue *)

(** [d.get(key, default)], and [d.get(key) or default] on a value that is
    truthy whenever present (a timestamp string). *)
Definition dict_get {A} (x : option A) (default : A) : A :=
  match x with
  | Some v => v
  | None => default
  end.

Definition show_int (z : Z) : string :=
  NilZero.string_of_int (Z.to_int z).

Definition enqueue `{PyRuntime} (cfg : Config.table) (now : Z)
    (job_payload : payload) (s : store) : store * (exn + job) :=
  let generated := ("job-" ++ show_int (timestamp_ms now))%string in
  let job_id :=
    match p_id job_payload with
    | Some i => if String.eqb i "" then generated else i
    | None => generated
    end in
  let max_retries :=
    dict_get (p_max_retries job_payload)
             (py_or (Config.get_int cfg "max_retries") 3) in
  match p_command job_payload with
  | None => (s, inl (KeyError "command"))
  | Some cmd =>
      let attempts := dict_get (p_attempts job_payload) 0 in
      let last_error := p_last_error job_payload in
      let job :=
        {| id := job_id;
           command := cmd;
           state := pending;
           attempts := attempts;
           max_retries := max_retries;
           created_at := dict_get (p_created_at job_payload) now;
           updated_at := dict_get (p_updated_at job_payload) now;
           next_run_at := now;
           last_error := last_error |} in
      match (do _ <- bind_int attempts;
             do _ <- bind_int max_retries;
             bind_text last_error) with
      | inl e => (s, inl e)
      | inr _ =>
          if existsb (has_id job_id) s
          then (s, inl IntegrityError)
          else (s ++ [job], inr job)
      end
  end.


(** ** JobQueue.reserve_job *)

Definition runnable (now : Z) (j : job) : bool :=
  match state j with
  | pending | failed => next_run_at j <=? now
  | _ => false
  end.

Definition claim (now : Z) (j : job) : job :=
  {| id := id j; command := command j; state := processing;
     attempts := attempts j; max_retries := max_retries j;
     created_at := created_at j; updated_at := now; next_run_at := now;
     last_error := last_error j |}.

(** The [UPDATE]: the subquery yields the id to claim, or NULL, which no
    row's id equals. *)
Definition reserve_update (now : Z) (s : store) : store * nat :=
  let target := option_map id (sql_select_first (runnable now) s) in
  sql_update
    (fun j => match target with
              | Some i => has_id i j
              | None => false
              end)
    (claim now) s.

(** The [SELECT] that follows it. *)
Definition reserve_fetch (now : Z) (s : store) : option job :=
  sql_select_first
    (fun j => job_state_eqb (state j) processing && (updated_at j =? now)) s.

Definition reserve_job (now : Z) (s : store) : store * option job :=
  let '(s', rowcount) := reserve_update now s in
  if Nat.eqb rowcount 0 then (s', None)
  else (s', reserve_fetch now s').

(** ** JobQueue.mark_completed *)

Definition complete (now : Z) (j : job) : job :=
  {| id := id j; command := command j; state := completed;
     attempts := attempts j; max_retries := max_retries j;
     created_at := created_at j; updated_at := now;
     next_run_at := next_run_at j; last_error := last_error j |}.

Definition mark_completed (now : Z) (job_id : string) (s : store) : store :=
  fst (sql_update (has_id job_id) (complete now) s).

(** ** JobQueue.mark_failed *)

(** [backoff_base ** attempts] seconds, in microseconds; a power too
    large to be computed is too large for a [timedelta] as well. *)
Definition power_us `{PyRuntime} (backoff_base attempts : Z) : option Z :=
  if 0 <=? attempts then Some (backoff_base ^ attempts * 1000000)
  else float_pow_us backoff_base attempts.

(** [timedelta(seconds = ...)] of a number of microseconds. *)
Definition timedelta (us : option Z) : fallible Z :=
  match us with
  | Some d =>
      if within timedelta_min timedelta_max d then inr d
      else inl OverflowError
  | None => inl OverflowError
  end.

(** [now + delta] on a [datetime]. *)
Definition datetime_add (now delta : Z) : fallible Z :=
  if within datetime_min datetime_max (now + delta) then inr (now + delta)
  else inl OverflowError.

(** [timedelta(seconds = backoff_base ** attempts)] in microseconds. *)
Definition delay_us `{PyRuntime} (backoff_base attempts : Z) : fallible Z :=
  timedelta (power_us backoff_base attempts).

(** Lines 187-196: the incremented attempt count, the target state and
    the next eligible time. *)
Definition backoff_policy `{PyRuntime} (now backoff_base attempts max_retries : Z)
  : fallible (Z * job_state * Z) :=
  let attempts := attempts + 1 in
  if attempts >? max_retries
  then inr (attempts, dead, now)
  else
    do delay <- delay_us backoff_base attempts;
    do next_run_at <- datetime_add now delay;
    inr (attempts, failed, next_run_at).

(** [error_msg or ""]: [None] and the empty string both give [""]. *)
Definition or_empty (error_msg : option text) : text :=
  match error_msg with
  | Some m => m
  | None => []
  end.

(** [(error_msg or "")[:512]]: a slice of a [str] counts code points. *)
Definition truncate_error (error_msg : option text) : text :=
  firstn 512 (or_empty error_msg).

Definition record_failure (new_state : job_state) (attempts now next_run_at : Z)
    (err : text) (j : job) : job :=
  {| id := id j; command := command j; state := new_state;
     attempts := attempts; max_retries := max_retries j;
     created_at := created_at j; updated_at := now;
     next_run_at := next_run_at; last_error := Some err |}.

(** An exception leaves before the [UPDATE]: from the computation of
    [next_run_at], or from binding the attempt count or the message. *)
Definition mark_failed `{PyRuntime} (cfg : Config.table) (now : Z)
    (job_id : string) (attempts max_retries : Z) (error_msg : option text)
    (s : store) : store * fallible unit :=
  let backoff_base := py_or (Config.get_int cfg "backoff_base") 2 in
  let err := truncate_error error_msg in
  match (do (attempts, new_state, next_run_at) <-
           backoff_policy now backoff_base attempts max_retries;
         do _ <- bind_int attempts;
         do _ <- bind_text (Some err);
         inr (attempts, new_state, next_run_at)) with
  | inl e => (s, inl e)
  | inr (attempts, new_state, next_run_at) =>
      (fst (sql_update (has_id job_id)
              (record_failure new_state attempts now next_run_at err) s),
       inr tt)
  end.

(** ** JobQueue.retry_dead_job *)

Definition revive (now : Z) (j : job) : job :=
  {| id := id j; command := command j; state := pending;
     attempts := 0; max_retries := max_retries j;
     created_at := created_at j; updated_at := now; next_run_at := now;
     last_error := None |}.

Definition retry_dead_job (now : Z) (job_id : string) (s : store) : store :=
  fst (sql_update
         (fun j => has_id job_id j && job_state_eqb (state j) dead)
         (revive now) s).

(** ** JobQueue.list_jobs *)

(** [ORDER BY created_at] over a whole result: rows of equal [created_at]
    stay in table order. *)
Fixpoint insert_by_created_at (j : job) (rows : list job) : list job :=
  match rows with
  | [] => [j]
  | k :: rows' =>
      if created_at j <=? created_at k then j :: k :: rows'
      else k :: insert_by_created_at j rows'
  end.

Fixpoint order_by_created_at (rows : list job) : list job :=
  match rows with
  | [] => []
  | j :: rows' => insert_by_created_at j (order_by_created_at rows')
  end.

(** The order of a result listed [ORDER BY created_at]. *)
Definition by_created_at (j k : job) : Prop := created_at j <= created_at k.

(** [state] is [None] for the default argument. *)
Definition list_jobs (state_filter : option job_state) (s : store)
  : list job :=
  match state_filter with
  | Some st =>
      order_by_created_at (filter (fun j => job_state_eqb (state j) st) s)
  | None => order_by_created_at s
  end.

(** ** worker.py: reporting the outcome of a job *)

(** An ASCII literal as code points. *)
Definition text_of_string (x : string) : text :=
  map N_of_ascii (list_ascii_of_string x).

(** Lines 67-84 of [worker_loop] after [subprocess.run] returned with
    [returncode], as far as the table goes: nothing to report when no job
    was reserved. *)
Definition report `{PyRuntime} (cfg : Config.table) (now : Z)
    (reserved : option job) (returncode : Z) (s : store) : store :=
  match reserved with
  | None => s
  | Some j =>
      if returncode =? 0 then mark_completed now (id j) s
      else fst (mark_failed cfg now (id j) (attempts j) (max_retries j)
                  (Some (text_of_string
                           ("Exit code " ++ show_int returncode)))
                  s)
  end.

(** ** worker.py: the worker registry *)

Module Workers.

(** A row of [workers(id AUTOINCREMENT, pid, name, last_heartbeat,
    started_at)]. *)
Record row := mkRow {
  id : Z;
  pid : Z;
  name : string;
  last_heartbeat : Z;
  started_at : Z
}.

(** The table with its [sqlite_sequence] entry, the largest id ever
    given out. *)
Record table := mkTable {
  rows : list row;
  sequence : Z
}.

Definition empty : table := {| rows := []; sequence := 0 |}.

End Workers.

Definition register_worker (now : Z) (pid : Z) (name : string)
    (reg : Workers.table) : Workers.table :=
  let next := Workers.sequence reg + 1 in
  {| Workers.rows :=
       Workers.rows reg
       ++ [ {| Workers.id := next; Workers.pid := pid;
               Workers.name := name; Workers.last_heartbeat := now;
               Workers.started_at := now |} ];
     Workers.sequence := next |}.

Definition beat (now : Z) (w : Workers.row) : Workers.row :=
  {| Workers.id := Workers.id w; Workers.pid := Workers.pid w;
     Workers.name := Workers.name w; Workers.last_heartbeat := now;
     Workers.started_at := Workers.started_at w |}.

Definition update_heartbeat (now : Z) (pid : Z) (reg : Workers.table)
  : Workers.table :=
  {| Workers.rows :=
       map (fun w => if Workers.pid w =? pid then beat now w else w)
         (Workers.rows reg);
     Workers.sequence := Workers.sequence reg |}.

Definition unregister_worker (pid : Z) (reg : Workers.table)
  : Workers.table :=
  {| Workers.rows :=
       filter (fun w => negb (Workers.pid w =? pid)) (Workers.rows reg);
     Workers.sequence := Workers.sequence reg |}.

(** ** JobQueue.get_status *)

Definition states : list job_state :=
  [pending; processing; completed; failed; dead].

(** [SELECT COUNT( * ) FROM jobs WHERE state = ?]. *)
Definition count_state (st : job_state) (s : store) : nat :=
  List.length (filter (fun j => job_state_eqb (state j) st) s).

(** Heartbeats in the last ten seconds: [last_heartbeat >= cutoff] with
    [cutoff = utcnow() - timedelta(seconds=10)]. *)
Definition is_active (now : Z) (w : Workers.row) : bool :=
  now - 10 * 1000000 <=? Workers.last_heartbeat w.

Record status := mkStatus {
  job_counts : list (job_state * nat);
  active : nat
}.

Definition get_status (now : Z) (s : store) (reg : Workers.table)
  : status :=
  {| job_counts := map (fun st => (st, count_state st s)) states;
     active := List.length (filter (is_active now) (Workers.rows reg)) |}.

(** ** worker.py: the loop *)

(** How [subprocess.run] ended: with an exit status, or by raising
    ([FileNotFoundError] or another [Exception]) with [str(e)] as
    message. *)
Inductive outcome := Exited (returncode : Z) | Raised (message : text).

(** What one turn of the loop reads from outside: whether the stop file
    exists, the clock at the heartbeat, at [reserve_job] and at the
    report, how the command ended, and the configuration table at the
    report; and, for the [mark_failed] call of the [except] clause that
    catches an exception of the first one, the text [str(e)] of that
    exception, the clock and the configuration table. *)
Record tick := mkTick {
  stop_file_exists : bool;
  heartbeat_at : Z;
  reserve_at : Z;
  result : outcome;
  report_at : Z;
  config : Config.table;
  caught_text : text;
  handler_at : Z;
  handler_config : Config.table
}.

(** The [try] block around [subprocess.run] with its [except] clauses,
    which make the same [mark_failed] call: an exception of the
    [mark_failed] of line 79 is caught by [except Exception] and reported
    by a second call; one raised in an [except] clause is caught by
    nothing. *)
Definition settle `{PyRuntime} (t : tick) (j : job) (s : store)
  : store * fallible unit :=
  let failed_with cfg now message s :=
    mark_failed cfg now (id j) (attempts j) (max_retries j)
      (Some message) s in
  match result t with
  | Exited returncode =>
      if returncode =? 0
      then (mark_completed (report_at t) (id j) s, inr tt)
      else
        match failed_with (config t) (report_at t)
                (text_of_string ("Exit code " ++ show_int returncode)) s with
        | (s', inr _) => (s', inr tt)
        | (s', inl _) =>
            failed_with (handler_config t) (handler_at t) (caught_text t) s'
        end
  | Raised message => failed_with (config t) (report_at t) message s
  end.

(** The two tables a worker writes. *)
Record system := mkSystem {
  jobs : store;
  workers : Workers.table
}.

(** One turn past the stop check: heartbeat, reserve, and, when a job
    came back, run it and report; [time.sleep] writes to no table. *)
Definition turn `{PyRuntime} (pid : Z) (t : tick) (st : system)
  : system * fallible unit :=
  let reg := update_heartbeat (heartbeat_at t) pid (workers st) in
  let '(s, reserved) := reserve_job (reserve_at t) (jobs st) in
  match reserved with
  | None => ({| jobs := s; workers := reg |}, inr tt)
  | Some j =>
      let '(s', r) := settle t j s in
      ({| jobs := s'; workers := reg |}, r)
  end.

(** How the [while True] loop stands after the turns observed so far:
    still going round, left through [break], or left by an exception. *)
Inductive exit := Polling | Break | Uncaught (e : exn).

Fixpoint poll `{PyRuntime} (pid : Z) (ticks : list tick) (st : system)
  : system * exit :=
  match ticks with
  | [] => (st, Polling)
  | t :: ticks' =>
      if stop_file_exists t then (st, Break)
      else
        match turn pid t st with
        | (st', inr _) => poll pid ticks' st'
        | (st', inl e) => (st', Uncaught e)
        end
  end.

Inductive run :=
| Looping (st : system)
| Stopped (st : system)
| Crashed (e : exn) (st : system).

(** [worker_loop]: register, loop, and unregister in the [finally],
    through which both the [break] and an exception leave. *)
Definition worker_loop `{PyRuntime} (pid : Z) (name : string)
    (registered_at : Z) (ticks : list tick) (st : system) : run :=
  let st0 := {| jobs := jobs st;
                workers := register_worker registered_at pid name
                             (workers st) |} in
  let '(st1, how) := poll pid ticks st0 in
  let unregistered :=
    {| jobs := jobs st1;
       workers := unregister_worker pid (workers st1) |} in
  match how with
  | Polling => Looping st1
  | Break => Stopped unregistered
  | Uncaught e => Crashed e unregistered
  end.

(** ** Store operations as a labelled step *)

Inductive op :=
| Enqueue (job_payload : payload)
| Reserve
| MarkCompleted (job_id : string)
| MarkFailed (job_id : string) (attempts max_retries : Z)
             (error_msg : option text)
| RetryDead (job_id : string).

(** The store after one call, made at time [now] with the configuration
    table holding [cfg]; a call that raises leaves it as it was. *)
Definition step `{PyRuntime} (cfg : Config.table) (now : Z) (o : op)
    (s : store) : store :=
  match o with
  | Enqueue p => fst (enqueue cfg now p s)
  | Reserve => fst (reserve_job now s)
  | MarkCompleted i => mark_completed now i s
  | MarkFailed i a m e => fst (mark_failed cfg now i a m e s)
  | RetryDead i => retry_dead_job now i s
  end.

(** The call the worker loop makes for a job it reserved, as a label. *)
Definition report_op (j : job) (returncode : Z) : op :=
  if returncode =? 0 then MarkCompleted (id j)
  else MarkFailed (id j) (attempts j) (max_retries j)
         (Some (text_of_string ("Exit code " ++ show_int returncode))).

(** Stores that calls can build from the empty table. *)
Inductive reachable `{PyRuntime} : store -> Prop :=
| reach_empty : reachable []
| reach_step cfg now o s : reachable s -> reachable (step cfg now o s).

Definition ids (s : store) : list string := map id s.

Definition get_job (job_id : string) (s : store) : option job :=
  find (has_id job_id) s.

(** A runtime to evaluate the operations with: local time is UTC and the
    millisecond stamp is exact; a fractional delay is rounded down, which
    is exact where the power divides a million, and a base of more than
    1024 bits is beyond the floats. *)
Definition sample_runtime : PyRuntime :=
  {| timestamp_ms := fun now => now / 1000;
     float_pow_us := fun b e =>
       if Z.abs b <? 2 ^ 1024 then Some (1000000 / b ^ (- e)) else None |}.

(** ** Notions the statements are phrased with *)

Fixpoint unique (l : list string) : bool :=
  match l with
  | [] => true
  | x :: l' => negb (existsb (String.eqb x) l') && unique l'
  end.

(** The primary key constraint on [jobs.id]. *)
Definition unique_ids (s : store) : bool := unique (ids s).

(** The id [enqueue] gives the job: the payload's, or the generated one
    when the payload has none or an empty one. *)
Definition chosen_id `{PyRuntime} (now : Z) (p : payload) : string :=
  match p_id p with
  | Some i =>
      if String.eqb i ""
      then ("job-" ++ show_int (timestamp_ms now))%string else i
  | None => ("job-" ++ show_int (timestamp_ms now))%string
  end.

(** The parameters of the [INSERT] of [enqueue] can be bound: attempts
    and max_retries fit 64 bits, and last_error, if any, encodes. *)
Definition insertable (cfg : Config.table) (p : payload) : bool :=
  int64 (dict_get (p_attempts p) 0)
  && int64 (dict_get (p_max_retries p)
              (py_or (Config.get_int cfg "max_retries") 3))
  && match p_last_error p with
     | Some t => encodable t
     | None => true
     end.

(** The columns no [UPDATE] of [job_queue.py] assigns. *)
Definition immutable_fields (j : job) : string * string * Z * Z :=
  (id j, command j, created_at j, max_retries j).

Definition live (st : job_state) : bool :=
  match st with
  | pending | processing | failed => true
  | completed | dead => false
  end.

(** The state machine of the specification, section 4.1, one constructor
    per arrow, for a call made at [now] and the row [j] as it stood
    before: a [failed] job is reserved once it is due, the calls that
    name a job move that job, and the attempt count compared with
    [max_retries] is the incremented one. *)
Inductive transition (now : Z) (j : job) : op -> job_state -> Prop :=
| T_reserve_pending :
    state j = pending -> transition now j Reserve processing
| T_reserve_failed :
    state j = failed -> next_run_at j <= now ->
    transition now j Reserve processing
| T_completed :
    state j = processing -> transition now j (MarkCompleted (id j)) completed
| T_failed a m e :
    state j = processing -> a + 1 <= m ->
    transition now j (MarkFailed (id j) a m e) failed
| T_dead a m e :
    state j = processing -> a + 1 > m ->
    transition now j (MarkFailed (id j) a m e) dead
| T_retry :
    state j = dead -> transition now j (RetryDead (id j)) pending.

(** One call changes the state of a row only along an arrow of the
    machine. *)
Definition follows_machine `{PyRuntime} (cfg : Config.table) (now : Z)
    (o : op) (s : store) : Prop :=
  forall n j j',
    nth_error s n = Some j ->
    nth_error (step cfg now o s) n = Some j' ->
    state j' = state j \/ transition now j o (state j').

(** [mark_completed] and [mark_failed] are addressed to a job that is
    being processed, as in the worker loop. *)
Definition addresses_processing (o : op) (s : store) : Prop :=
  match o with
  | MarkCompleted i | MarkFailed i _ _ _ =>
      forall j, In j s -> id j = i -> state j = processing
  | _ => True
  end.

(** The attempt bound of the data model, with the sign of [max_retries]. *)
Definition attempts_bounded (j : job) : Prop :=
  0 <= max_retries j /\
  (live (state j) = true -> attempts j <= max_retries j).

(** What a call has to respect for the attempt bound to survive it. *)
Definition keeps_bound (cfg : Config.table) (o : op) (s : store) : Prop :=
  match o with
  | Enqueue p =>
      let m := dict_get (p_max_retries p)
                 (py_or (Config.get_int cfg "max_retries") 3) in
      0 <= m /\ dict_get (p_attempts p) 0 <= m
  | MarkFailed i _ m _ =>
      forall j, In j s -> id j = i -> m <= max_retries j
  | _ => True
  end.

(** The rows the [UPDATE] of [reserve_job] rewrites: those carrying the
    selected id. *)
Definition claimed_by (now : Z) (s : store) (j : job) : bool :=
  match option_map id (sql_select_first (runnable now) s) with
  | Some i => has_id i j
  | None => false
  end.

(** The states [reserve_job] claims from. *)
Definition claimable (j : job) : bool :=
  match state j with
  | pending | failed => true
  | _ => false
  end.

Definition claimable_ids (s : store) : list string :=
  ids (filter claimable s).

(** A round of [reserve_job] calls, one per worker, run one after the
    other at the given clock readings. *)
Fixpoint reserve_round (clock : list Z) (s : store)
  : store * list (option job) :=
  match clock with
  | [] => (s, [])
  | now :: clock' =>
      let '(s1, r) := reserve_job now s in
      let '(s2, rs) := reserve_round clock' s1 in
      (s2, r :: rs)
  end.

Fixpoint returned_ids (rs : list (option job)) : list string :=
  match rs with
  | [] => []
  | Some j :: rs' => id j :: returned_ids rs'
  | None :: rs' => returned_ids rs'
  end.

Definition in_flight (j : job) : bool := job_state_eqb (state j) processing.

(** No row in [processing] carries the time stamp [now]. *)
Definition unstamped (now : Z) (s : store) : Prop :=
  forall j, In j s -> state j = processing -> updated_at j <> now.

(** The delay [base ** attempts] seconds can be added to [now]: it fits
    a [timedelta], and the sum a [datetime]. *)
Definition backoff_fits `{PyRuntime} (now base attempts : Z) : bool :=
  match power_us base attempts with
  | Some d =>
      within timedelta_min timedelta_max d
      && within datetime_min datetime_max (now + d)
  | None => false
  end.

(** A [mark_failed] call goes through: the incremented attempt count and
    the message can be stored and, short of the dead-letter state, the
    backoff fits. *)
Definition storable `{PyRuntime} (cfg : Config.table) (now : Z)
    (attempts max_retries : Z) (error_msg : option text) : bool :=
  int64 (attempts + 1) && encodable (truncate_error error_msg)
  && ((attempts + 1 >? max_retries)
      || backoff_fits now (py_or (Config.get_int cfg "backoff_base") 2)
           (attempts + 1)).

(** The row a [mark_failed] call that goes through writes over [j]. *)
Definition written_row `{PyRuntime} (cfg : Config.table) (now : Z)
    (attempts max_retries : Z) (error_msg : option text) (j : job) : job :=
  record_failure
    (if attempts + 1 >? max_retries then dead else failed)
    (attempts + 1) now
    (if attempts + 1 >? max_retries then now
     else now + dict_get
                  (power_us (py_or (Config.get_int cfg "backoff_base") 2)
                     (attempts + 1)) 0)
    (truncate_error error_msg) j.

(** The row [mark_failed] leaves when it is passed the row's own attempts
    and max_retries and goes through. *)
Definition failure_row `{PyRuntime} (cfg : Config.table) (now : Z)
    (message : text) (j : job) : job :=
  written_row cfg now (attempts j) (max_retries j) (Some message) j.

(** Which of its calls, if any, reports the job the worker ran: the one
    in the [try] block, or the one in the [except] clause. *)
Inductive reporter := FirstCall | Handler.

Definition reported_by `{PyRuntime} (t : tick) (j : job) : option reporter :=
  let goes cfg now message :=
    storable cfg now (attempts j) (max_retries j) (Some message) in
  match result t with
  | Exited returncode =>
      if returncode =? 0 then Some FirstCall
      else if goes (config t) (report_at t)
                (text_of_string ("Exit code " ++ show_int returncode))
      then Some FirstCall
      else if goes (handler_config t) (handler_at t) (caught_text t)
      then Some Handler
      else None
  | Raised message =>
      if goes (config t) (report_at t) message then Some FirstCall
      else None
  end.

(** The row the worker leaves of the job it ran, by the call that
    reports it. *)
Definition outcome_row `{PyRuntime} (t : tick) (who : reporter) (j : job)
  : job :=
  match who, result t with
  | FirstCall, Exited returncode =>
      if returncode =? 0 then complete (report_at t) j
      else failure_row (config t) (report_at t)
             (text_of_string ("Exit code " ++ show_int returncode)) j
  | FirstCall, Raised message =>
      failure_row (config t) (report_at t) message j
  | Handler, _ =>
      failure_row (handler_config t) (handler_at t) (caught_text t) j
  end.

(** The row a turn leaves of the job it claimed: the one reported, or
    the claimed row as it is when no call went through. *)
Definition left_row `{PyRuntime} (t : tick) (j : job) : job :=
  match reported_by t j with
  | Some who => outcome_row t who j
  | None => j
  end.

(** The retry budget: attempts within max_retries, and exactly one past
    it on a [dead] row. *)
Definition budget_kept (j : job) : Prop :=
  0 <= max_retries j /\
  match state j with
  | dead => attempts j = max_retries j + 1
  | _ => attempts j <= max_retries j
  end.

Definition final_state (r : run) : system :=
  match r with
  | Looping st | Stopped st | Crashed _ st => st
  end.


(** One for the state [b] itself, nothing for the others. *)
Definition tally (st b : job_state) : nat :=
  if job_state_eqb st b then 1%nat else 0%nat.

(** ** Sample rows and tables *)

Definition dead_row : job :=
  {| id := "a"; command := "false"; state := dead; attempts := 4;
     max_retries := 3; created_at := 10; updated_at := 90;
     next_run_at := 90; last_error := Some [69%N] |}.

Definition row (i : string) (st : job_state) (created : Z) : job :=
  {| id := i; command := "true"; state := st; attempts := 0;
     max_retries := 3; created_at := created; updated_at := created;
     next_run_at := created; last_error := None |}.

(** The payload [{"id": "a", "command": "true", "attempts": 5,
    "max_retries": 3, "created_at": <200>}]. *)
Definition eager_payload : payload :=
  {| p_id := Some "a"%string; p_command := Some "true"%string;
     p_max_retries := Some 3; p_attempts := Some 5;
     p_created_at := Some 200; p_updated_at := None;
     p_last_error := None |}.

(** 512 times the letter e with an acute accent, U+00E9. *)
Definition accented_message : text := repeat 233%N 512.

(** The same letter 600 times. *)
Definition long_message : text := repeat 233%N 600.


(** The same job once claimed. *)
Definition worn_row : job :=
  {| id := "w"; command := "false"; state := processing; attempts := 37;
     max_retries := 50; created_at := 10; updated_at := 100;
     next_run_at := 100; last_error := None |}.

(** The payload [{"command": "ls"}]. *)
Definition bare_payload : payload :=
  {| p_id := None; p_command := Some "ls"%string; p_max_retries := None;
     p_attempts := None; p_created_at := None; p_updated_at := None;
     p_last_error := None |}.

(** Two runnable jobs, [a] the older. *)
Definition two_pending : store := [row "a" pending 10; row "b" pending 20].

(** The payload [{"id": "j", "command": "false", "max_retries": 1}]. *)
Definition failing_payload : payload :=
  {| p_id := Some "j"%string; p_command := Some "false"%string;
     p_max_retries := Some 1; p_attempts := None; p_created_at := None;
     p_updated_at := None; p_last_error := None |}.

(** 3 November 2026, 14:05:09 and 17 microseconds. *)
Definition sample_datetime : datetime :=
  {| year := 2026; month := 11; day := 3; hour := 14; minute := 5;
     second := 9; microsecond := 17 |}.

(** The ids of the registry are pairwise distinct and none exceeds the
    recorded sequence. *)
Definition well_sequenced (reg : Workers.table) : Prop :=
  Forall (fun w => Workers.id w <= Workers.sequence reg) (Workers.rows reg)
  /\ NoDup (map Workers.id (Workers.rows reg)).

Definition pids (reg : Workers.table) : list Z :=
  map Workers.pid (Workers.rows reg).

(** A registry with one worker, pid 7, last heard of at time 50. *)
Definition one_worker : Workers.table :=
  {| Workers.rows :=
       [ {| Workers.id := 1; Workers.pid := 7; Workers.name := "worker-1";
            Workers.last_heartbeat := 50; Workers.started_at := 50 |} ];
     Workers.sequence := 1 |}.

(** A turn in which the command exits with status 1. *)
Definition failing_tick : tick :=
  {| stop_file_exists := false; heartbeat_at := 100; reserve_at := 110;
     result := Exited 1; report_at := 200; config := [];
     caught_text := []; handler_at := 210; handler_config := [] |}.

Definition stop_tick : tick :=
  {| stop_file_exists := true; heartbeat_at := 300; reserve_at := 310;
     result := Exited 0; report_at := 400; config := [];
     caught_text := []; handler_at := 410; handler_config := [] |}.

Definition sample_system : system :=
  {| jobs := two_pending; workers := one_worker |}.

(** * Properties *)

(** ** Lists, keys and statements *)

Lemma unique_NoDup (l : list string) : unique l = true <-> NoDup l.
Proof.
  induction l as [|x l IH]; simpl.
  - split; [constructor | reflexivity].
  - rewrite andb_true_iff, negb_true_iff, IH. split.
    + intros [Hx Hl]. constructor; [|exact Hl].
      intro Hin. assert (existsb (String.eqb x) l = true) as E.
      { apply existsb_exists. exists x. split; [exact Hin|apply String.eqb_refl]. }
      congruence.
    + intro Hnd. inversion Hnd as [|? ? Hx Hl]; subst. split; [|exact Hl].
      destruct (existsb (String.eqb x) l) eqn:E; [|reflexivity].
      apply existsb_exists in E. destruct E as [y [Hy Heq]].
      apply String.eqb_eq in Heq. subst y. contradiction.
Qed.

Lemma has_id_true i j : has_id i j = true <-> id j = i.
Proof. unfold has_id. apply String.eqb_eq. Qed.

Lemma has_id_false i j : has_id i j = false <-> id j <> i.
Proof. unfold has_id. apply String.eqb_neq. Qed.

Lemma existsb_has_id i s : existsb (has_id i) s = true <-> In i (ids s).
Proof.
  unfold ids. rewrite existsb_exists, in_map_iff. split.
  - intros [j [Hin Hid]]. exists j. split; [apply has_id_true; exact Hid | exact Hin].
  - intros [j [Hid Hin]]. exists j. split; [exact Hin | apply has_id_true; exact Hid].
Qed.

Lemma unique_ids_inj s j k :
  unique_ids s = true -> In j s -> In k s -> id j = id k -> j = k.
Proof.
  unfold unique_ids. rewrite unique_NoDup. unfold ids.
  induction s as [|x s IH]; simpl; [contradiction|].
  intros Hnd Hj Hk Hid. inversion Hnd as [|? ? Hx Hs]; subst.
  destruct Hj as [Hj|Hj], Hk as [Hk|Hk]; subst.
  - reflexivity.
  - exfalso. apply Hx. rewrite Hid. apply in_map. exact Hk.
  - exfalso. apply Hx. rewrite <- Hid. apply in_map. exact Hj.
  - apply IH; assumption.
Qed.

Lemma get_job_in i s j : get_job i s = Some j -> In j s /\ id j = i.
Proof.
  unfold get_job. intro Hf. apply find_some in Hf.
  destruct Hf as [Hin Hid]. split; [exact Hin | apply has_id_true; exact Hid].
Qed.

Lemma get_job_none i s : get_job i s = None <-> ~ In i (ids s).
Proof.
  unfold get_job. split.
  - intros Hf Hin. apply existsb_has_id in Hin. apply existsb_exists in Hin.
    destruct Hin as [j [Hj Hid]].
    pose proof (find_none _ _ Hf j Hj). congruence.
  - intro Hn. destruct (find (has_id i) s) as [j|] eqn:Hf; [|reflexivity].
    exfalso. apply Hn. apply find_some in Hf. destruct Hf as [Hin Hid].
    apply existsb_has_id. apply existsb_exists. exists j. split; assumption.
Qed.

(** A row-wise rewriting that keeps ids is seen through [get_job]. *)
Lemma get_job_map (g : job -> job) i s :
  (forall j, id (g j) = id j) ->
  get_job i (map g s) = option_map g (get_job i s).
Proof.
  intro Hg. unfold get_job. induction s as [|j s IH]; simpl; [reflexivity|].
  unfold has_id at 1. rewrite Hg. fold (has_id i j).
  destruct (has_id i j); [reflexivity | exact IH].
Qed.

Lemma ids_map (g : job -> job) s :
  (forall j, id (g j) = id j) -> ids (map g s) = ids s.
Proof.
  intro Hg. unfold ids. rewrite map_map. apply map_ext. exact Hg.
Qed.

Lemma map_unchanged (g : job -> job) (s : store) :
  (forall j, In j s -> g j = j) -> map g s = s.
Proof.
  intro Hg. rewrite <- (map_id s) at 2. apply map_ext_in. exact Hg.
Qed.

Lemma get_job_unique s k :
  unique_ids s = true -> In k s -> get_job (id k) s = Some k.
Proof.
  intros Hu Hin. destruct (get_job (id k) s) as [k'|] eqn:E.
  - destruct (get_job_in _ _ _ E) as [Hin' Hid'].
    f_equal. apply (unique_ids_inj s); assumption.
  - apply get_job_none in E. exfalso. apply E. unfold ids.
    apply in_map. exact Hin.
Qed.

(** ** An [UPDATE] seen through [get_job] *)

Section Update.

Variables (c : job -> bool) (f : job -> job).
Hypothesis f_keeps_id : forall r, id (f r) = id r.

Lemma get_job_update i s j :
  get_job i s = Some j ->
  get_job i (fst (sql_update c f s)) = Some (if c j then f j else j).
Proof.
  intro Hj. simpl.
  rewrite (get_job_map (fun r => if c r then f r else r)), Hj;
    [reflexivity|].
  intro r. destruct (c r); [apply f_keeps_id | reflexivity].
Qed.

Lemma get_job_update_other i k s :
  (forall r, c r = true -> id r = i) -> k <> i ->
  get_job k (fst (sql_update c f s)) = get_job k s.
Proof.
  intros Hc Hk. destruct (get_job k s) as [j|] eqn:Hj.
  - rewrite (get_job_update k s j Hj).
    destruct (get_job_in _ _ _ Hj) as [_ Hid].
    destruct (c j) eqn:E; [|reflexivity].
    exfalso. apply Hk. rewrite <- Hid. apply Hc. exact E.
  - simpl. rewrite get_job_none in Hj |- *. rewrite ids_map; [exact Hj|].
    intro r. destruct (c r); [apply f_keeps_id | reflexivity].
Qed.

Lemma sql_update_untouched s :
  (forall j, In j s -> c j = false) -> fst (sql_update c f s) = s.
Proof.
  intro Hc. simpl. apply map_unchanged. intros j Hj.
  rewrite (Hc j Hj). reflexivity.
Qed.

End Update.

(** ** The SQL statements *)

Lemma first_by_created_at_spec rows k :
  first_by_created_at rows = Some k ->
  In k rows /\ forall j, In j rows -> created_at k <= created_at j.
Proof.
  revert k. induction rows as [|r rows IH]; simpl; intros k Hk; [discriminate|].
  destruct (first_by_created_at rows) as [k0|] eqn:E.
  - destruct (IH k0 eq_refl) as [Hin Hmin].
    injection Hk as <-. unfold older.
    destruct (created_at k0 <? created_at r) eqn:C.
    + apply Z.ltb_lt in C. split; [right; exact Hin|].
      intros j [<-|Hj]; [lia | apply Hmin; exact Hj].
    + apply Z.ltb_ge in C. split; [left; reflexivity|].
      intros j [<-|Hj]; [lia | specialize (Hmin j Hj); lia].
  - injection Hk as <-. destruct rows as [|r' rows'].
    + split; [left; reflexivity|]. intros j [<-|[]]. lia.
    + simpl in E. destruct (first_by_created_at rows'); discriminate.
Qed.

Lemma first_by_created_at_none rows :
  first_by_created_at rows = None -> rows = [].
Proof.
  destruct rows as [|r rows]; simpl; [reflexivity|].
  destruct (first_by_created_at rows); discriminate.
Qed.

Lemma sql_select_first_some c s k :
  sql_select_first c s = Some k ->
  In k s /\ c k = true /\
  forall j, In j s -> c j = true -> created_at k <= created_at j.
Proof.
  unfold sql_select_first. intro Hk.
  apply first_by_created_at_spec in Hk. destruct Hk as [Hin Hmin].
  apply filter_In in Hin. destruct Hin as [Hin Hc].
  repeat split; try assumption.
  intros j Hj Hcj. apply Hmin. apply filter_In. split; assumption.
Qed.

Lemma sql_select_first_none c s :
  sql_select_first c s = None -> forall j, In j s -> c j = false.
Proof.
  unfold sql_select_first. intros Hn j Hj.
  apply first_by_created_at_none in Hn.
  destruct (c j) eqn:Hc; [|reflexivity].
  assert (In j (filter c s)) as Hf by (apply filter_In; split; assumption).
  rewrite Hn in Hf. contradiction.
Qed.

Lemma sql_select_first_found c s j :
  In j s -> c j = true -> exists k, sql_select_first c s = Some k.
Proof.
  intros Hj Hc. destruct (sql_select_first c s) as [k|] eqn:E.
  - exists k. reflexivity.
  - pose proof (sql_select_first_none _ _ E j Hj). congruence.
Qed.

Lemma sql_update_rows c f s :
  fst (sql_update c f s) = map (fun j => if c j then f j else j) s.
Proof. reflexivity. Qed.

Lemma sql_update_rowcount_zero c f s :
  snd (sql_update c f s) = 0%nat -> fst (sql_update c f s) = s.
Proof.
  simpl. intro Hlen. apply map_unchanged. intros j Hj.
  destruct (c j) eqn:Hc; [|reflexivity].
  assert (In j (filter c s)) as Hf by (apply filter_In; split; assumption).
  destruct (filter c s); [contradiction | discriminate].
Qed.

Lemma sql_update_rowcount_pos c f s j :
  In j s -> c j = true -> snd (sql_update c f s) <> 0%nat.
Proof.
  simpl. intros Hj Hc Hlen.
  assert (In j (filter c s)) as Hf by (apply filter_In; split; assumption).
  destruct (filter c s); [contradiction | discriminate].
Qed.

(** ** The shape of each operation's effect on the table *)

Lemma reserve_job_rows now s :
  fst (reserve_job now s)
  = map (fun j => if claimed_by now s j then claim now j else j) s.
Proof.
  unfold reserve_job.
  destruct (reserve_update now s) as [s' rowcount] eqn:E.
  assert (s' = fst (reserve_update now s)) as -> by (rewrite E; reflexivity).
  destruct (Nat.eqb rowcount 0); reflexivity.
Qed.

Lemma power_us_nonneg `{PyRuntime} b a :
  0 <= a -> power_us b a = Some (b ^ a * 1000000).
Proof.
  intro Ha. unfold power_us.
  destruct (0 <=? a) eqn:E; [reflexivity | apply Z.leb_gt in E; lia].
Qed.

(** [mark_failed] either goes through, rewriting the rows of the id, or
    raises and leaves the table as it was. *)
Lemma mark_failed_returns `{PyRuntime} cfg now i a m e s :
  storable cfg now a m e = true ->
  mark_failed cfg now i a m e s
  = (map (fun j => if has_id i j then written_row cfg now a m e j else j) s,
     inr tt).
Proof.
  unfold storable, backoff_fits, mark_failed, written_row, backoff_policy,
    delay_us, timedelta, datetime_add, bind, bind_int, bind_text.
  intro Hok. apply andb_prop in Hok as [Hok Hfit].
  apply andb_prop in Hok as [Hint Henc].
  destruct (a + 1 >? m); simpl in Hfit |- *.
  - rewrite Hint, Henc. reflexivity.
  - destruct (power_us _ _) as [d|]; [|discriminate].
    apply andb_prop in Hfit as [-> ->]. simpl.
    rewrite Hint, Henc. reflexivity.
Qed.

Lemma mark_failed_raises `{PyRuntime} cfg now i a m e s :
  storable cfg now a m e = false ->
  exists ex, mark_failed cfg now i a m e s = (s, inl ex).
Proof.
  unfold storable, backoff_fits, mark_failed, backoff_policy,
    delay_us, timedelta, datetime_add, bind, bind_int, bind_text.
  intro Hno.
  destruct (a + 1 >? m); simpl in Hno.
  - destruct (int64 (a + 1)); [|eexists; reflexivity].
    destruct (encodable _); [discriminate | eexists; reflexivity].
  - destruct (power_us _ _) as [d|]; [|eexists; reflexivity].
    destruct (within timedelta_min _ _); [|eexists; reflexivity].
    destruct (within datetime_min _ _); [|eexists; reflexivity].
    destruct (int64 (a + 1)); [|eexists; reflexivity].
    destruct (encodable _); [discriminate | eexists; reflexivity].
Qed.

Lemma mark_failed_rows `{PyRuntime} cfg now i a m e s :
  fst (mark_failed cfg now i a m e s)
  = map (fun j =>
           if storable cfg now a m e && has_id i j
           then written_row cfg now a m e j
           else j) s.
Proof.
  destruct (storable cfg now a m e) eqn:Hok.
  - rewrite mark_failed_returns by exact Hok. reflexivity.
  - destruct (mark_failed_raises cfg now i a m e s Hok) as [ex ->].
    simpl. symmetry. apply map_id.
Qed.

(** The checks the parameters of the [INSERT] go through. *)
Lemma enqueue_binds `{PyRuntime} cfg now p s cmd :
  p_command p = Some cmd ->
  insertable cfg p = false ->
  enqueue cfg now p s
  = (s, inl (if int64 (dict_get (p_attempts p) 0)
                && int64 (dict_get (p_max_retries p)
                            (py_or (Config.get_int cfg "max_retries") 3))
             then UnicodeEncodeError else OverflowError)).
Proof.
  intros Hcmd Hno. unfold enqueue, bind, bind_int, bind_text.
  rewrite Hcmd. unfold insertable in Hno.
  destruct (int64 (dict_get (p_attempts p) 0)); [|reflexivity].
  destruct (int64 (dict_get (p_max_retries p) _)); [|reflexivity].
  destruct (p_last_error p) as [t|]; [|discriminate].
  destruct (encodable t); [discriminate|]. reflexivity.
Qed.

Lemma enqueue_bound `{PyRuntime} cfg now p s cmd :
  p_command p = Some cmd ->
  insertable cfg p = true ->
  let j :=
    {| id := chosen_id now p; command := cmd; state := pending;
       attempts := dict_get (p_attempts p) 0;
       max_retries := dict_get (p_max_retries p)
                        (py_or (Config.get_int cfg "max_retries") 3);
       created_at := dict_get (p_created_at p) now;
       updated_at := dict_get (p_updated_at p) now;
       next_run_at := now; last_error := p_last_error p |} in
  enqueue cfg now p s
  = if existsb (has_id (chosen_id now p)) s then (s, inl IntegrityError)
    else (s ++ [j], inr j).
Proof.
  intros Hcmd Hok. unfold enqueue, bind, bind_int, bind_text.
  rewrite Hcmd. unfold insertable in Hok.
  apply andb_prop in Hok as [Hok Htext]. apply andb_prop in Hok as [-> ->].
  destruct (p_last_error p) as [t|]; [rewrite Htext|]; reflexivity.
Qed.

Lemma enqueue_cases `{PyRuntime} cfg now p s :
  (exists e, enqueue cfg now p s = (s, inl e)) \/
  (exists j, enqueue cfg now p s = (s ++ [j], inr j) /\
             ~ In (id j) (ids s) /\
             state j = pending /\
             next_run_at j = now /\
             attempts j = dict_get (p_attempts p) 0 /\
             max_retries j
             = dict_get (p_max_retries p)
                 (py_or (Config.get_int cfg "max_retries") 3) /\
             created_at j = dict_get (p_created_at p) now).
Proof.
  destruct (p_command p) as [cmd|] eqn:Hcmd.
  - destruct (insertable cfg p) eqn:Hok.
    + rewrite (enqueue_bound cfg now p s cmd Hcmd Hok).
      destruct (existsb (has_id (chosen_id now p)) s) eqn:E.
      * left. eexists. reflexivity.
      * right. eexists. split; [reflexivity|].
        split; [|repeat split].
        intro Hin. apply existsb_has_id in Hin. simpl in Hin, E. congruence.
    + rewrite (enqueue_binds cfg now p s cmd Hcmd Hok).
      left. eexists. reflexivity.
  - left. exists (KeyError "command"). unfold enqueue. rewrite Hcmd.
    reflexivity.
Qed.

Lemma retry_dead_job_rows now i s :
  retry_dead_job now i s
  = map (fun j => if has_id i j && job_state_eqb (state j) dead
                  then revive now j else j) s.
Proof. reflexivity. Qed.

Lemma mark_completed_rows now i s :
  mark_completed now i s
  = map (fun j => if has_id i j then complete now j else j) s.
Proof. reflexivity. Qed.

Lemma job_state_eqb_eq a b : job_state_eqb a b = true <-> a = b.
Proof. destruct a, b; simpl; split; intro; try reflexivity; discriminate. Qed.

(** The addressed row after each of the three calls that take an id. *)
Lemma get_job_mark_completed now i s j :
  get_job i s = Some j ->
  get_job i (mark_completed now i s) = Some (complete now j).
Proof.
  intro Hj. unfold mark_completed.
  rewrite (get_job_update (has_id i) (complete now) (fun _ => eq_refl)
             i s j Hj).
  destruct (get_job_in _ _ _ Hj) as [_ Hid]. apply has_id_true in Hid.
  rewrite Hid. reflexivity.
Qed.

Lemma get_job_mark_failed `{PyRuntime} cfg now i a m e s j :
  storable cfg now a m e = true ->
  get_job i s = Some j ->
  get_job i (fst (mark_failed cfg now i a m e s))
  = Some (written_row cfg now a m e j).
Proof.
  intros Hok Hj. rewrite mark_failed_returns by exact Hok.
  unfold fst.
  set (f := written_row cfg now a m e).
  change (map _ s) with (fst (sql_update (has_id i) f s)).
  rewrite (get_job_update (has_id i) f (fun _ => eq_refl) i s j Hj).
  destruct (get_job_in _ _ _ Hj) as [_ Hid]. apply has_id_true in Hid.
  rewrite Hid. reflexivity.
Qed.

Lemma get_job_retry_dead_job now i s j :
  get_job i s = Some j ->
  get_job i (retry_dead_job now i s)
  = Some (if job_state_eqb (state j) dead then revive now j else j).
Proof.
  intro Hj. unfold retry_dead_job.
  rewrite (get_job_update _ (revive now) (fun _ => eq_refl) i s j Hj).
  destruct (get_job_in _ _ _ Hj) as [_ Hid]. apply has_id_true in Hid.
  rewrite Hid. reflexivity.
Qed.

(** Every operation but [enqueue] rewrites rows in place, keeping the
    immutable columns. *)
Lemma step_rowwise `{PyRuntime} cfg now o s :
  (forall p, o <> Enqueue p) ->
  exists g, step cfg now o s = map g s /\
            forall j, immutable_fields (g j) = immutable_fields j.
Proof.
  intro Hne. destruct o as [p| |i|i a m e|i]; simpl.
  - exfalso. apply (Hne p). reflexivity.
  - eexists. split; [apply reserve_job_rows|].
    intro j. simpl. destruct (claimed_by now s j); reflexivity.
  - eexists. split; [apply sql_update_rows|].
    intro j. simpl. destruct (has_id i j); reflexivity.
  - eexists. split; [apply mark_failed_rows|].
    intro j. simpl. destruct (storable cfg now a m e && has_id i j);
      reflexivity.
  - eexists. split; [apply sql_update_rows|].
    intro j. simpl.
    destruct (has_id i j && job_state_eqb (state j) dead); reflexivity.
Qed.

Lemma step_ids `{PyRuntime} cfg now o s :
  (forall p, o <> Enqueue p) -> ids (step cfg now o s) = ids s.
Proof.
  intro Hne. destruct (step_rowwise cfg now o s Hne) as [g [-> Hg]].
  apply ids_map. intro j. specialize (Hg j).
  unfold immutable_fields in Hg. congruence.
Qed.

Lemma step_unique_ids `{PyRuntime} cfg now o s :
  unique_ids s = true -> unique_ids (step cfg now o s) = true.
Proof.
  intro Hu.
  assert ((forall p, o <> Enqueue p) \/ exists p, o = Enqueue p) as [Hne|[p ->]].
  { destruct o; try (left; intros; discriminate). right. eexists. reflexivity. }
  - unfold unique_ids. rewrite step_ids by exact Hne. exact Hu.
  - simpl.
    destruct (enqueue_cases cfg now p s) as [[e ->]|[j [-> [Hfresh _]]]];
      simpl; [exact Hu|].
    unfold unique_ids in *. rewrite unique_NoDup in *.
    unfold ids in *. rewrite map_app. simpl.
    apply NoDup_app; [exact Hu | repeat constructor; intros [] |].
    intros x Hx [<-|[]]. contradiction.
Qed.

Lemma reachable_unique_ids `{PyRuntime} s :
  reachable s -> unique_ids s = true.
Proof.
  induction 1 as [|cfg now o s _ IH]; [reflexivity|].
  apply step_unique_ids. exact IH.
Qed.

(** ** Rows are created by [enqueue] alone *)

(** C10.  No operation other than [enqueue] changes the set of job ids:
    [reserve_job], [mark_completed], [mark_failed] and [retry_dead_job]
    rewrite rows in place, so the table keeps, row by row, the same id,
    command, created_at and max_retries.  An [enqueue] that returns a job
    has appended exactly that job, under an id the table did not hold,
    and one that raises has left the table as it was; and an [enqueue]
    does return a job, adding its id to those of the table, whenever the
    payload has a command, its parameters can be bound and the table
    does not hold the id yet. *)
Theorem only_enqueue_adds_rows `{PyRuntime} cfg now o s :
  match o with
  | Enqueue p =>
      match enqueue cfg now p s with
      | (s', inr j) => s' = s ++ [j] /\ ~ In (id j) (ids s)
      | (s', inl _) => s' = s
      end /\
      (forall cmd,
         p_command p = Some cmd -> insertable cfg p = true ->
         ~ In (chosen_id now p) (ids s) ->
         exists j, enqueue cfg now p s = (s ++ [j], inr j) /\
                   ids (step cfg now o s) = ids s ++ [chosen_id now p])
  | _ => map immutable_fields (step cfg now o s) = map immutable_fields s
  end.
Proof.
  assert (forall o', (forall p, o' <> Enqueue p) ->
            map immutable_fields (step cfg now o' s) = map immutable_fields s)
    as Hrow.
  { intros o' Hne. destruct (step_rowwise cfg now o' s Hne) as [g [-> Hg]].
    rewrite map_map. apply map_ext. exact Hg. }
  destruct o as [p| |i|i a m e|i]; try (apply Hrow; intros p; discriminate).
  split.
  - destruct (enqueue_cases cfg now p s) as [[e ->]|[j [-> [Hfresh _]]]].
    + reflexivity.
    + split; [reflexivity | exact Hfresh].
  - intros cmd Hcmd Hok Hfresh. simpl step.
    rewrite (enqueue_bound cfg now p s cmd Hcmd Hok).
    destruct (existsb (has_id (chosen_id now p)) s) eqn:E.
    + exfalso. apply Hfresh. apply existsb_has_id. exact E.
    + eexists. split; [reflexivity|]. simpl. unfold ids.
      rewrite map_app. reflexivity.
Qed.

Lemma only_enqueue_adds_rows_witness :
  p_command bare_payload = Some "ls"%string /\
  insertable [] bare_payload = true /\
  ~ In (@chosen_id sample_runtime 1234567 bare_payload)
       (ids [row "a" pending 10]) /\
  exists j,
    @enqueue sample_runtime [] 1234567 bare_payload [row "a" pending 10]
    = ([row "a" pending 10] ++ [j], inr j) /\
    ids (@step sample_runtime [] 1234567 (Enqueue bare_payload)
           [row "a" pending 10])
    = ["a"; "job-1234"]%string.
Proof.
  assert (~ In (@chosen_id sample_runtime 1234567 bare_payload)
               (ids [row "a" pending 10])) as Hfresh.
  { simpl. intros [Heq|[]]. discriminate Heq. }
  split; [reflexivity|]. split; [reflexivity|]. split; [exact Hfresh|].
  exact (proj2 (@only_enqueue_adds_rows sample_runtime [] 1234567
                  (Enqueue bare_payload) [row "a" pending 10])
           "ls"%string eq_refl eq_refl Hfresh).
Defined.

(** ** retry_dead_job *)

(** C6.  [retry_dead_job job_id] moves the job to [pending] with
    [attempts = 0], [next_run_at = now] (hence [next_run_at <= now]) and
    [last_error] cleared exactly when that job exists in state [dead]; its
    immutable columns stay, and so does every other job.  When the job is
    missing or in any other state the whole table is unchanged.  The
    function has no raising path. *)
Theorem retry_dead_job_spec now i s :
  unique_ids s = true ->
  (forall j, get_job i s = Some j -> state j = dead ->
     exists j', get_job i (retry_dead_job now i s) = Some j' /\
                state j' = pending /\ attempts j' = 0 /\
                next_run_at j' = now /\ next_run_at j' <= now /\
                last_error j' = None /\
                immutable_fields j' = immutable_fields j) /\
  (forall k, k <> i ->
     get_job k (retry_dead_job now i s) = get_job k s) /\
  ((forall j, get_job i s = Some j -> state j <> dead) ->
     retry_dead_job now i s = s).
Proof.
  intro Hu. split; [|split].
  - intros j Hj Hdead. rewrite (get_job_retry_dead_job now i s j Hj), Hdead.
    eexists. split; [reflexivity|]. simpl. repeat split. lia.
  - intros k Hk. unfold retry_dead_job.
    apply get_job_update_other with (i := i); [reflexivity | | exact Hk].
    intros r Hr. apply andb_true_iff in Hr. apply has_id_true, Hr.
  - intro Hnot. unfold retry_dead_job. apply sql_update_untouched.
    intros j Hj. apply andb_false_iff.
    destruct (has_id i j) eqn:Hid; [right | left; reflexivity].
    apply has_id_true in Hid. subst i.
    destruct (job_state_eqb (state j) dead) eqn:Hst; [|reflexivity].
    apply job_state_eqb_eq in Hst.
    destruct (Hnot j (get_job_unique s j Hu Hj) Hst).
Qed.

Lemma retry_dead_job_spec_witness :
  unique_ids [dead_row] = true /\
  get_job "a" [dead_row] = Some dead_row /\
  state dead_row = dead /\
  exists j', get_job "a" (retry_dead_job 100 "a" [dead_row]) = Some j' /\
             state j' = pending /\ attempts j' = 0 /\
             next_run_at j' = 100 /\ next_run_at j' <= 100 /\
             last_error j' = None /\
             immutable_fields j' = immutable_fields dead_row.
Proof.
  split; [reflexivity|]. split; [reflexivity|]. split; [reflexivity|].
  exact (proj1 (retry_dead_job_spec 100 "a" [dead_row] eq_refl)
           dead_row eq_refl eq_refl).
Defined.

(** ** mark_completed *)

(** C5, as stated, fails: [mark_completed] on a job that is [dead] does
    not leave its state unchanged, it makes the job [completed]. *)
Lemma mark_completed_revives_dead :
  ~ (forall now i s j,
       get_job i s = Some j ->
       state j = completed \/ state j = dead ->
       exists j', get_job i (mark_completed now i s) = Some j' /\
                  state j' = state j).
Proof.
  intro Hclaim.
  destruct (Hclaim 100 "a"%string [dead_row] dead_row eq_refl
              (or_intror eq_refl)) as [j' [Hj' Hst]].
  vm_compute in Hj'. injection Hj' as <-. discriminate Hst.
Qed.

(** C5, amended.  [mark_completed] has no raising path.  On an id the
    table does not hold it changes nothing.  On a job that exists, in
    whatever state ([dead] included), it sets the state to [completed] and
    [updated_at] to now and keeps every other column; other jobs are
    untouched.  Hence it is idempotent on states: after a second call each
    row is in the state the first call left it in, and a job already
    [completed] stays [completed]. *)
Theorem mark_completed_spec now i s :
  (get_job i s = None -> mark_completed now i s = s) /\
  (forall j, get_job i s = Some j ->
     exists j', get_job i (mark_completed now i s) = Some j' /\
                state j' = completed /\ updated_at j' = now /\
                immutable_fields j' = immutable_fields j /\
                attempts j' = attempts j /\
                next_run_at j' = next_run_at j /\
                last_error j' = last_error j) /\
  (forall k, k <> i ->
     get_job k (mark_completed now i s) = get_job k s) /\
  (forall now',
     map state (mark_completed now' i (mark_completed now i s))
     = map state (mark_completed now i s)).
Proof.
  split; [|split; [|split]].
  - intro Hnone. unfold mark_completed. apply sql_update_untouched.
    intros j Hj. apply has_id_false. intros <-.
    apply get_job_none in Hnone. apply Hnone. unfold ids.
    apply in_map. exact Hj.
  - intros j Hj. rewrite (get_job_mark_completed now i s j Hj).
    eexists. split; [reflexivity|]. repeat split.
  - intros k Hk. unfold mark_completed.
    apply get_job_update_other with (i := i); [reflexivity | | exact Hk].
    intros r Hr. apply has_id_true, Hr.
  - intro now'. rewrite !mark_completed_rows, !map_map. apply map_ext.
    intro j. destruct (has_id i j) eqn:Hid.
    + unfold has_id. simpl. fold (has_id i j). rewrite Hid. reflexivity.
    + rewrite Hid. reflexivity.
Qed.

Lemma mark_completed_spec_witness :
  get_job "a" [dead_row] = Some dead_row /\
  exists j', get_job "a" (mark_completed 100 "a" [dead_row]) = Some j' /\
             state j' = completed /\ updated_at j' = 100 /\
             immutable_fields j' = immutable_fields dead_row /\
             attempts j' = attempts dead_row /\
             next_run_at j' = next_run_at dead_row /\
             last_error j' = last_error dead_row.
Proof.
  split; [reflexivity|].
  exact (proj1 (proj2 (mark_completed_spec 100 "a" [dead_row]))
           dead_row eq_refl).
Defined.

(** ** The state machine *)

Lemma nth_error_step_rowwise `{PyRuntime} cfg now o s g n j j' :
  step cfg now o s = map g s ->
  nth_error s n = Some j ->
  nth_error (step cfg now o s) n = Some j' ->
  j' = g j.
Proof.
  intros -> Hj Hj'. rewrite nth_error_map, Hj in Hj'. simpl in Hj'.
  congruence.
Qed.

Lemma nth_error_enqueue `{PyRuntime} cfg now p s n j j' :
  nth_error s n = Some j ->
  nth_error (fst (enqueue cfg now p s)) n = Some j' ->
  j' = j.
Proof.
  intros Hj Hj'.
  destruct (enqueue_cases cfg now p s) as [[e E]|[k [E _]]];
    rewrite E in Hj'; simpl in Hj'.
  - congruence.
  - rewrite nth_error_app1 in Hj' by (apply nth_error_Some; congruence).
    congruence.
Qed.

(** The row [reserve_job] rewrites was runnable. *)
Lemma claimed_by_runnable now s j :
  unique_ids s = true -> In j s ->
  claimed_by now s j = true -> runnable now j = true.
Proof.
  intros Hu Hj Hc. unfold claimed_by in Hc.
  destruct (sql_select_first (runnable now) s) as [k|] eqn:Hk;
    simpl in Hc; [|discriminate].
  apply sql_select_first_some in Hk. destruct Hk as [Hin [Hrun _]].
  apply has_id_true in Hc.
  assert (j = k) as -> by (apply (unique_ids_inj s); assumption).
  exact Hrun.
Qed.

(** C3, as stated, fails: [mark_failed] addressed to a [completed] job
    moves it to [failed], so [completed] is not terminal. *)
Lemma mark_failed_leaves_completed :
  ~ @follows_machine sample_runtime [] 100
      (MarkFailed "a" 0 3 None) [row "a" completed 10].
Proof.
  intro Hclaim.
  destruct (Hclaim 0%nat (row "a" completed 10) _ eq_refl eq_refl)
    as [Hst|Htr].
  - vm_compute in Hst. discriminate Hst.
  - inversion Htr as [| | |a m e Hst|a m e Hst|]; discriminate Hst.
Qed.

(** C3, amended.  Every state change made by [enqueue], [reserve_job] or
    [retry_dead_job] follows the state machine, the guard of its arrows
    included: [reserve_job] moves a [failed] job only once it is due, and
    the calls that name a job move no other.  So does every change made
    by [mark_completed] or [mark_failed] when the job they are addressed
    to is in state [processing].  Neither of these two tests the current
    state: they write [completed], respectively [failed] or [dead], over
    any state. *)
Theorem transitions_follow_machine `{PyRuntime} cfg now o s :
  unique_ids s = true ->
  addresses_processing o s ->
  follows_machine cfg now o s.
Proof.
  intros Hu Haddr n j j' Hj Hj'.
  assert (In j s) as Hin by (eapply nth_error_In; exact Hj).
  destruct o as [p| |i|i a m e|i]; simpl in Haddr.
  - left. simpl in Hj'. rewrite (nth_error_enqueue cfg now p s n j j' Hj Hj').
    reflexivity.
  - rewrite (nth_error_step_rowwise cfg now Reserve s _ n j j'
               (reserve_job_rows now s) Hj Hj').
    destruct (claimed_by now s j) eqn:Hc; [|left; reflexivity].
    right. pose proof (claimed_by_runnable now s j Hu Hin Hc) as Hrun.
    unfold runnable in Hrun. simpl.
    destruct (state j) eqn:Hst; try discriminate.
    + apply T_reserve_pending. exact Hst.
    + apply T_reserve_failed; [exact Hst | apply Z.leb_le, Hrun].
  - rewrite (nth_error_step_rowwise cfg now (MarkCompleted i) s _ n j j'
               (mark_completed_rows now i s) Hj Hj').
    destruct (has_id i j) eqn:Hid; [|left; reflexivity].
    right. apply has_id_true in Hid. subst i. simpl.
    apply T_completed. exact (Haddr j Hin eq_refl).
  - rewrite (nth_error_step_rowwise cfg now (MarkFailed i a m e) s _ n j j'
               (mark_failed_rows cfg now i a m e s) Hj Hj').
    destruct (storable cfg now a m e && has_id i j) eqn:Hid;
      [|left; reflexivity].
    right. apply andb_prop in Hid as [_ Hid].
    apply has_id_true in Hid. subst i.
    pose proof (Haddr j Hin eq_refl) as Hst. simpl.
    destruct (a + 1 >? m) eqn:Hgt.
    + apply T_dead; [exact Hst|]. apply Z.gtb_lt in Hgt. lia.
    + apply T_failed; [exact Hst|].
      rewrite Z.gtb_ltb in Hgt. apply Z.ltb_ge in Hgt. lia.
  - rewrite (nth_error_step_rowwise cfg now (RetryDead i) s _ n j j'
               (retry_dead_job_rows now i s) Hj Hj').
    destruct (has_id i j && job_state_eqb (state j) dead) eqn:Hc;
      [|left; reflexivity].
    right. apply andb_true_iff in Hc. destruct Hc as [Hid Hst].
    apply has_id_true in Hid. subst i.
    apply job_state_eqb_eq in Hst. simpl. apply T_retry. exact Hst.
Qed.

Lemma transitions_follow_machine_witness :
  unique_ids [row "a" processing 10; row "b" completed 20] = true /\
  addresses_processing (MarkFailed "a" 0 3 None)
    [row "a" processing 10; row "b" completed 20] /\
  @follows_machine sample_runtime [] 100 (MarkFailed "a" 0 3 None)
    [row "a" processing 10; row "b" completed 20].
Proof.
  assert (addresses_processing (MarkFailed "a" 0 3 None)
            [row "a" processing 10; row "b" completed 20]) as Haddr.
  { simpl. intros j [<-|[<-|[]]] Hid; [reflexivity | discriminate Hid]. }
  split; [reflexivity|]. split; [exact Haddr|].
  exact (@transitions_follow_machine sample_runtime [] 100
           (MarkFailed "a" 0 3 None)
           [row "a" processing 10; row "b" completed 20] eq_refl Haddr).
Defined.

(** ** The job-field invariants *)

(** C8, as stated, fails on both counts: [enqueue] stores the [attempts]
    and [created_at] of the payload as they come, so a call made at time
    100 with attempts 5, max_retries 3 and created_at 200 yields a
    [pending] row whose attempts exceed its max_retries and whose
    next_run_at precedes its created_at. *)
Lemma enqueue_trusts_payload :
  ~ (forall s, @reachable sample_runtime s ->
       forall j, In j s -> live (state j) = true ->
                 attempts j <= max_retries j) /\
  ~ (forall now p s s' j,
       @enqueue sample_runtime [] now p s = (s', inr j) ->
       created_at j <= next_run_at j).
Proof.
  split.
  - intro Hclaim.
    pose proof (@reach_step sample_runtime [] 100 (Enqueue eager_payload) []
                  (@reach_empty sample_runtime)) as Hreach.
    specialize (Hclaim _ Hreach _ (or_introl eq_refl) eq_refl).
    vm_compute in Hclaim. apply Hclaim. reflexivity.
  - intro Hclaim.
    specialize (Hclaim 100 eager_payload [] _ _ eq_refl).
    vm_compute in Hclaim. apply Hclaim. reflexivity.
Qed.

Lemma live_rowwise (g : job -> job) (s : store) :
  (forall j, In j s -> attempts_bounded j -> attempts_bounded (g j)) ->
  Forall attempts_bounded s -> Forall attempts_bounded (map g s).
Proof.
  intros Hg Hs. apply Forall_forall. intros j' Hj'.
  apply in_map_iff in Hj'. destruct Hj' as [j [<- Hj]].
  apply Hg; [exact Hj|]. rewrite Forall_forall in Hs. apply Hs. exact Hj.
Qed.

Lemma power_us_sign `{PyRuntime} b e :
  0 <= b -> 0 <= e -> 0 <= dict_get (power_us b e) 0.
Proof.
  intros Hb He. rewrite power_us_nonneg by exact He. simpl.
  apply Z.mul_nonneg_nonneg; [apply Z.pow_nonneg; exact Hb | lia].
Qed.


(** C8, amended.  The attempt bound (attempts <= max_retries on a
    [pending], [processing] or [failed] row, with max_retries >= 0) is
    preserved by every operation provided that an enqueued payload, after
    defaults, has 0 <= max_retries and attempts <= max_retries, and that
    [mark_failed] is passed a max_retries no larger than the row's.
    [enqueue] sets next_run_at to now, which is not before created_at when
    the payload gives no created_at or one not after now.  A [mark_failed]
    call that goes through, made with attempts >= 0 under a backoff base
    >= 0, sets next_run_at no earlier than now, hence no earlier than the
    previous next_run_at of a job that was due, and leaves the job [dead]
    exactly when the incremented attempts exceed the max_retries it was
    passed; one that raises leaves the table, next_run_at included, as it
    was. *)
Theorem job_invariants_preserved `{PyRuntime} cfg now :
  (forall o s,
     unique_ids s = true ->
     Forall attempts_bounded s ->
     keeps_bound cfg o s ->
     Forall attempts_bounded (step cfg now o s)) /\
  (forall p s s' j,
     enqueue cfg now p s = (s', inr j) ->
     next_run_at j = now /\
     (dict_get (p_created_at p) now <= now ->
      created_at j <= next_run_at j)) /\
  (forall i a m e s j,
     get_job i s = Some j ->
     0 <= a ->
     0 <= py_or (Config.get_int cfg "backoff_base") 2 ->
     storable cfg now a m e = true ->
     exists s' j',
       mark_failed cfg now i a m e s = (s', inr tt) /\
       get_job i s' = Some j' /\
       now <= next_run_at j' /\
       (next_run_at j <= now -> next_run_at j <= next_run_at j') /\
       (attempts j' > m <-> state j' = dead)) /\
  (forall i a m e s,
     storable cfg now a m e = false ->
     exists ex, mark_failed cfg now i a m e s = (s, inl ex)).
Proof.
  split; [|split; [|split]].
  - intros o s Hu Hs Hk. destruct o as [p| |i|i a m e|i]; simpl in Hk |- *.
    + destruct (enqueue_cases cfg now p s)
        as [[e ->]|[j [-> [_ [Hst [_ [Ha [Hm _]]]]]]]]; simpl; [exact Hs|].
      apply Forall_app. split; [exact Hs|]. constructor; [|constructor].
      unfold attempts_bounded. rewrite Ha, Hm. split; [apply Hk|].
      intros _. apply Hk.
    + rewrite reserve_job_rows. apply live_rowwise; [|exact Hs].
      intros j Hj [Hm Hb].
      destruct (claimed_by now s j) eqn:Hc; [|split; assumption].
      pose proof (claimed_by_runnable now s j Hu Hj Hc) as Hrun.
      unfold runnable in Hrun. unfold attempts_bounded. simpl.
      split; [exact Hm|]. intros _. apply Hb.
      destruct (state j); try discriminate; reflexivity.
    + rewrite mark_completed_rows. apply live_rowwise; [|exact Hs].
      intros j Hj [Hm Hb]. destruct (has_id i j); [|split; assumption].
      unfold attempts_bounded. simpl. split; [exact Hm | discriminate].
    + rewrite mark_failed_rows. apply live_rowwise; [|exact Hs].
      intros j Hj [Hm Hb].
      destruct (storable cfg now a m e && has_id i j) eqn:Hid;
        [|split; assumption].
      apply andb_prop in Hid as [_ Hid].
      apply has_id_true in Hid. specialize (Hk j Hj Hid).
      unfold attempts_bounded. simpl. split; [exact Hm|].
      destruct (a + 1 >? m) eqn:Hgt; [discriminate|].
      intros _. rewrite Z.gtb_ltb in Hgt. apply Z.ltb_ge in Hgt. lia.
    + rewrite retry_dead_job_rows. apply live_rowwise; [|exact Hs].
      intros j Hj [Hm Hb].
      destruct (has_id i j && job_state_eqb (state j) dead);
        [|split; assumption].
      unfold attempts_bounded. simpl. split; [exact Hm|]. intros _. exact Hm.
  - intros p s s' j He.
    destruct (enqueue_cases cfg now p s)
      as [[e E]|[k [E [_ [_ [Hn [_ [_ Hc]]]]]]]]; rewrite E in He.
    + discriminate He.
    + injection He as _ <-. split; [exact Hn|]. rewrite Hn, Hc. trivial.
  - intros i a m e s j Hj Ha Hb Hok.
    pose proof (get_job_mark_failed cfg now i a m e s j Hok Hj) as Hrow.
    rewrite (mark_failed_returns cfg now i a m e s Hok) in Hrow |- *.
    eexists. eexists. split; [reflexivity|]. split; [exact Hrow|].
    unfold written_row. simpl.
    pose proof (power_us_sign
                  (py_or (Config.get_int cfg "backoff_base") 2) (a + 1)
                  Hb ltac:(lia)) as Hd.
    destruct (a + 1 >? m) eqn:Hgt.
    + apply Z.gtb_lt in Hgt.
      repeat split; try lia; intros; trivial.
    + rewrite Z.gtb_ltb in Hgt. apply Z.ltb_ge in Hgt.
      repeat split; try lia; intros; try lia. discriminate.
  - intros i a m e s Hno. apply mark_failed_raises. exact Hno.
Qed.

Lemma job_invariants_preserved_witness :
  unique_ids [row "a" processing 10] = true /\
  Forall attempts_bounded [row "a" processing 10] /\
  keeps_bound [] (MarkFailed "a" 0 3 None) [row "a" processing 10] /\
  Forall attempts_bounded
    (@step sample_runtime [] 100 (MarkFailed "a" 0 3 None)
       [row "a" processing 10]) /\
  get_job "a" [row "a" processing 10] = Some (row "a" processing 10) /\
  @storable sample_runtime [] 100 0 3 None = true /\
  exists s' j',
    @mark_failed sample_runtime [] 100 "a" 0 3 None [row "a" processing 10]
    = (s', inr tt) /\
    get_job "a" s' = Some j' /\
    100 <= next_run_at j' /\
    (next_run_at (row "a" processing 10) <= 100 ->
     next_run_at (row "a" processing 10) <= next_run_at j') /\
    (attempts j' > 3 <-> state j' = dead).
Proof.
  assert (Forall attempts_bounded [row "a" processing 10]) as Hs.
  { constructor; [|constructor]. unfold attempts_bounded. simpl.
    split; [lia | intros _; lia]. }
  assert (keeps_bound [] (MarkFailed "a" 0 3 None) [row "a" processing 10])
    as Hk.
  { simpl. intros j [<-|[]] _. simpl. lia. }
  split; [reflexivity|]. split; [exact Hs|]. split; [exact Hk|].
  split.
  - exact (proj1 (@job_invariants_preserved sample_runtime [] 100)
             (MarkFailed "a" 0 3 None) [row "a" processing 10]
             eq_refl Hs Hk).
  - split; [reflexivity|]. split; [reflexivity|].
    exact (proj1 (proj2 (proj2
             (@job_invariants_preserved sample_runtime [] 100)))
             "a"%string 0 3 None [row "a" processing 10] _ eq_refl
             ltac:(lia) ltac:(vm_compute; discriminate) eq_refl).
Defined.

(** ** last_error *)

Lemma utf8_size_bounds (t : text) :
  (List.length t <= utf8_size t <= 4 * List.length t)%nat.
Proof.
  induction t as [|c t IH]; simpl; [lia|].
  unfold utf8_len.
  destruct (c <? 128)%N; [lia|].
  destruct (c <? 2048)%N; [lia|].
  destruct (c <? 65536)%N; lia.
Qed.

Lemma utf8_size_ascii (t : text) :
  Forall (fun c => (c < 128)%N) t -> utf8_size t = List.length t.
Proof.
  induction 1 as [|c t Hc _ IH]; simpl; [reflexivity|].
  unfold utf8_len. apply N.ltb_lt in Hc. rewrite Hc, IH. reflexivity.
Qed.

Lemma Forall_firstn {A} (P : A -> Prop) n (l : list A) :
  Forall P l -> Forall P (firstn n l).
Proof.
  intro Hl. apply Forall_forall. intros x Hx.
  rewrite Forall_forall in Hl. apply Hl.
  rewrite <- (firstn_skipn n l). apply in_or_app. left. exact Hx.
Qed.

(** C9, as stated, fails: the slice keeps 512 code points, not 512
    bytes.  A message of 512 accented letters is stored whole, and its
    UTF-8 encoding, which is what the TEXT column holds, is 1024 bytes
    long. *)
Lemma last_error_exceeds_512_bytes :
  ~ (forall cfg now i a m e s j',
       get_job i (fst (@mark_failed sample_runtime cfg now i a m e s))
       = Some j' ->
       exists t, last_error j' = Some t /\ (utf8_size t <= 512)%nat).
Proof.
  intro Hclaim.
  destruct (Hclaim [] 100 "a"%string 0 3 (Some accented_message)
              [row "a" processing 10] _ eq_refl) as [t [Ht Hsize]].
  vm_compute in Ht. injection Ht as <-.
  apply Nat.leb_le in Hsize. vm_compute in Hsize. discriminate Hsize.
Qed.

(** C9, amended.  A [mark_failed] call that goes through stores as
    last_error the first 512 characters (code points) of the message, the
    empty string when the message is absent: a prefix of the message, the
    whole of it when it has at most 512 characters, at most 512 bytes when
    the message is ASCII and at most 2048 bytes otherwise.  A call that
    raises stores nothing; it does when the first 512 characters hold a
    lone surrogate, which UTF-8 cannot encode.  [retry_dead_job] on a
    [dead] job sets last_error to null. *)
Theorem last_error_truncated `{PyRuntime} cfg now i a m e s :
  (forall j, get_job i s = Some j ->
     storable cfg now a m e = true ->
     exists s' j',
       mark_failed cfg now i a m e s = (s', inr tt) /\
       get_job i s' = Some j' /\
       last_error j' = Some (truncate_error e)) /\
  (forall s' ex, mark_failed cfg now i a m e s = (s', inl ex) -> s' = s) /\
  (encodable (truncate_error e) = false ->
     exists ex, mark_failed cfg now i a m e s = (s, inl ex)) /\
  (List.length (truncate_error e) <= 512)%nat /\
  (exists rest, or_empty e = truncate_error e ++ rest) /\
  ((List.length (or_empty e) <= 512)%nat -> truncate_error e = or_empty e) /\
  (Forall (fun c => (c < 128)%N) (or_empty e) ->
     (utf8_size (truncate_error e) <= 512)%nat) /\
  (utf8_size (truncate_error e) <= 2048)%nat /\
  (forall j, get_job i s = Some j -> state j = dead ->
     exists j', get_job i (retry_dead_job now i s) = Some j' /\
                last_error j' = None).
Proof.
  assert (List.length (truncate_error e) <= 512)%nat as Hlen.
  { unfold truncate_error. rewrite length_firstn. lia. }
  split; [|split; [|split; [|split; [exact Hlen|split; [|split; [|split; [|split]]]]]]].
  - intros j Hj Hok.
    pose proof (get_job_mark_failed cfg now i a m e s j Hok Hj) as Hrow.
    rewrite (mark_failed_returns cfg now i a m e s Hok) in Hrow |- *.
    eexists. eexists. split; [reflexivity|]. split; [exact Hrow|].
    reflexivity.
  - intros s' ex Hraise.
    destruct (storable cfg now a m e) eqn:Hok.
    + rewrite (mark_failed_returns cfg now i a m e s Hok) in Hraise.
      discriminate Hraise.
    + destruct (mark_failed_raises cfg now i a m e s Hok) as [ex' E].
      rewrite E in Hraise. congruence.
  - intro Henc. apply mark_failed_raises. unfold storable.
    rewrite Henc, andb_false_r. reflexivity.
  - exists (skipn 512 (or_empty e)). unfold truncate_error.
    symmetry. apply firstn_skipn.
  - intro Hshort. unfold truncate_error. apply firstn_all2. exact Hshort.
  - intro Hascii. rewrite utf8_size_ascii; [exact Hlen|].
    unfold truncate_error. apply Forall_firstn. exact Hascii.
  - pose proof (utf8_size_bounds (truncate_error e)). lia.
  - intros j Hj Hdead. rewrite (get_job_retry_dead_job now i s j Hj), Hdead.
    eexists. split; reflexivity.
Qed.

Lemma last_error_truncated_witness :
  get_job "a" [dead_row] = Some dead_row /\
  state dead_row = dead /\
  @storable sample_runtime [] 100 4 3 (Some long_message) = true /\
  truncate_error (Some long_message) = accented_message /\
  (exists s' j',
     @mark_failed sample_runtime [] 100 "a" 4 3 (Some long_message)
       [dead_row] = (s', inr tt) /\
     get_job "a" s' = Some j' /\
     last_error j' = Some (truncate_error (Some long_message))) /\
  (exists j', get_job "a" (retry_dead_job 100 "a" [dead_row]) = Some j' /\
              last_error j' = None).
Proof.
  pose proof (@last_error_truncated sample_runtime [] 100 "a" 4 3
                (Some long_message) [dead_row])
    as [Hset [_ [_ [_ [_ [_ [_ [_ Hclear]]]]]]]].
  split; [reflexivity|]. split; [reflexivity|]. split; [reflexivity|].
  split; [reflexivity|]. split.
  - exact (Hset dead_row eq_refl eq_refl).
  - exact (Hclear dead_row eq_refl eq_refl).
Defined.

(** ** mark_failed: backoff and dead-letter policy *)







(** ** enqueue *)




(** ** reserve_job *)

Lemma runnable_claimable now j :
  runnable now j = claimable j && (next_run_at j <=? now).
Proof. unfold runnable, claimable. destruct (state j); reflexivity. Qed.

Lemma reserve_job_rows_some now s k :
  sql_select_first (runnable now) s = Some k ->
  fst (reserve_job now s)
  = map (fun j => if has_id (id k) j then claim now j else j) s.
Proof.
  intro Hk. rewrite reserve_job_rows. apply map_ext. intro j.
  unfold claimed_by. rewrite Hk. reflexivity.
Qed.

(** No runnable job: the [UPDATE] touches no row and the call returns
    [None]. *)
Lemma reserve_job_none now s :
  sql_select_first (runnable now) s = None -> reserve_job now s = (s, None).
Proof.
  intro Hk. unfold reserve_job, reserve_update. rewrite Hk. simpl option_map.
  assert (List.length (filter (fun _ : job => false) s) = 0%nat) as Hlen.
  { clear. induction s; simpl; [reflexivity | assumption]. }
  unfold sql_update. rewrite Hlen. simpl.
  rewrite map_unchanged; reflexivity.
Qed.

(** A runnable job: the [UPDATE] touches a row, so the call goes on to the
    [SELECT], whose answer it returns. *)
Lemma reserve_job_some now s k :
  sql_select_first (runnable now) s = Some k ->
  reserve_job now s
  = (fst (reserve_job now s), reserve_fetch now (fst (reserve_job now s))).
Proof.
  intro Hk. pose proof (sql_select_first_some _ _ _ Hk) as [Hin _].
  unfold reserve_job.
  destruct (reserve_update now s) as [s' rowcount] eqn:E.
  assert (rowcount <> 0%nat) as Hpos.
  { change rowcount with (snd (s', rowcount)). rewrite <- E.
    unfold reserve_update. rewrite Hk. simpl option_map.
    apply (sql_update_rowcount_pos _ _ s k Hin).
    apply has_id_true. reflexivity. }
  apply Nat.eqb_neq in Hpos. rewrite Hpos. reflexivity.
Qed.

(** On a fresh clock reading the [SELECT] finds the claimed row only. *)
Lemma reserve_job_fresh_tick now s k :
  unique_ids s = true ->
  (forall j, In j s -> state j = processing -> updated_at j <> now) ->
  sql_select_first (runnable now) s = Some k ->
  reserve_job now s
  = (map (fun j => if has_id (id k) j then claim now j else j) s,
     Some (claim now k)).
Proof.
  intros Hu Hfresh Hk.
  pose proof (sql_select_first_some _ _ _ Hk) as [Hin _].
  rewrite (reserve_job_some now s k Hk), (reserve_job_rows_some now s k Hk).
  f_equal.
  set (s' := map (fun j => if has_id (id k) j then claim now j else j) s).
  assert (In (claim now k) s') as Hin'.
  { apply in_map_iff. exists k. split; [|exact Hin].
    assert (has_id (id k) k = true) as -> by (apply has_id_true; reflexivity).
    reflexivity. }
  destruct (sql_select_first_found
              (fun j => job_state_eqb (state j) processing
                        && (updated_at j =? now)) s' (claim now k) Hin')
    as [r Hr].
  { simpl. apply Z.eqb_refl. }
  unfold reserve_fetch. rewrite Hr. f_equal.
  apply sql_select_first_some in Hr. destruct Hr as [Hrin [Hc _]].
  apply in_map_iff in Hrin. destruct Hrin as [j [Hj Hjin]].
  destruct (has_id (id k) j) eqn:Hid.
  - apply has_id_true in Hid.
    assert (j = k) as -> by (apply (unique_ids_inj s); assumption).
    symmetry. exact Hj.
  - subst r. apply andb_true_iff in Hc. destruct Hc as [Hst Hup].
    apply job_state_eqb_eq in Hst. apply Z.eqb_eq in Hup.
    destruct (Hfresh j Hjin Hst Hup).
Qed.

(** X1.  What the [UPDATE] of [reserve_job] does to the table: nothing
    when no job is runnable; otherwise the oldest runnable job, and no other, goes
    to [processing] with updated_at and next_run_at set to now, and the
    call returns some job. *)
Theorem reserve_job_claims_oldest now s :
  unique_ids s = true ->
  match sql_select_first (runnable now) s with
  | None =>
      (forall j, In j s -> runnable now j = false) /\
      reserve_job now s = (s, None)
  | Some k =>
      In k s /\ runnable now k = true /\
      (forall j, In j s -> runnable now j = true ->
                 created_at k <= created_at j) /\
      get_job (id k) (fst (reserve_job now s)) = Some (claim now k) /\
      (forall i, i <> id k ->
                 get_job i (fst (reserve_job now s)) = get_job i s) /\
      exists r, snd (reserve_job now s) = Some r /\
                state r = processing /\ updated_at r = now
  end.
Proof.
  intro Hu. destruct (sql_select_first (runnable now) s) as [k|] eqn:Hk.
  - pose proof (sql_select_first_some _ _ _ Hk) as [Hin [Hrun Hmin]].
    rewrite (reserve_job_rows_some now s k Hk), <- sql_update_rows.
    repeat split; try assumption.
    + rewrite (get_job_update (has_id (id k)) (claim now) (fun _ => eq_refl)
                 (id k) s k (get_job_unique s k Hu Hin)).
      assert (has_id (id k) k = true) as -> by (apply has_id_true; reflexivity).
      reflexivity.
    + intros i Hi.
      apply get_job_update_other with (i := id k);
        [reflexivity | | exact Hi].
      intros r Hr. apply has_id_true, Hr.
    + rewrite (reserve_job_some now s k Hk). simpl snd.
      destruct (sql_select_first_found
                  (fun j => job_state_eqb (state j) processing
                            && (updated_at j =? now))
                  (fst (reserve_job now s)) (claim now k)) as [r Hr].
      * rewrite (reserve_job_rows_some now s k Hk).
        apply in_map_iff. exists k. split; [|exact Hin].
        assert (has_id (id k) k = true) as ->
            by (apply has_id_true; reflexivity).
        reflexivity.
      * simpl. apply Z.eqb_refl.
      * exists r. split; [exact Hr|].
        apply sql_select_first_some in Hr. destruct Hr as [_ [Hc _]].
        apply andb_true_iff in Hc. destruct Hc as [Hst Hup].
        split; [apply job_state_eqb_eq, Hst | apply Z.eqb_eq, Hup].
  - split; [exact (sql_select_first_none _ _ Hk) |
            exact (reserve_job_none now s Hk)].
Qed.

Lemma reserve_job_claims_oldest_witness :
  unique_ids two_pending = true /\
  get_job "a" (fst (reserve_job 100 two_pending))
  = Some (claim 100 (row "a" pending 10)).
Proof.
  split; [reflexivity|].
  exact (proj1 (proj2 (proj2 (proj2
           (reserve_job_claims_oldest 100 two_pending eq_refl))))).
Defined.

(** X2.  The job returned is the job claimed, the oldest runnable one as
    the [UPDATE] rewrote it, whenever no row already in [processing] carries
    the time stamp of the call. *)
Theorem reserve_job_returns_claimed now s k :
  unique_ids s = true ->
  (forall j, In j s -> state j = processing -> updated_at j <> now) ->
  sql_select_first (runnable now) s = Some k ->
  exists r, snd (reserve_job now s) = Some r /\
            get_job (id k) (fst (reserve_job now s)) = Some r /\
            immutable_fields r = immutable_fields k /\
            attempts r = attempts k /\
            state r = processing /\
            updated_at r = now /\ next_run_at r = now.
Proof.
  intros Hu Hfresh Hk.
  pose proof (sql_select_first_some _ _ _ Hk) as [Hin _].
  rewrite (reserve_job_fresh_tick now s k Hu Hfresh Hk).
  exists (claim now k). simpl. repeat split.
  change (map _ s) with (fst (sql_update (has_id (id k)) (claim now) s)).
  rewrite (get_job_update (has_id (id k)) (claim now) (fun _ => eq_refl)
             (id k) s k (get_job_unique s k Hu Hin)).
  assert (has_id (id k) k = true) as -> by (apply has_id_true; reflexivity).
  reflexivity.
Qed.

Lemma reserve_job_returns_claimed_witness :
  unique_ids two_pending = true /\
  sql_select_first (runnable 100) two_pending = Some (row "a" pending 10) /\
  exists r, snd (reserve_job 100 two_pending) = Some r /\
            get_job "a" (fst (reserve_job 100 two_pending)) = Some r /\
            immutable_fields r = immutable_fields (row "a" pending 10) /\
            attempts r = 0 /\
            state r = processing /\
            updated_at r = 100 /\ next_run_at r = 100.
Proof.
  split; [reflexivity|]. split; [reflexivity|].
  apply (reserve_job_returns_claimed 100 two_pending (row "a" pending 10)
           eq_refl); [|reflexivity].
  intros j [<-|[<-|[]]] Hst; discriminate Hst.
Defined.

(** C2: the defect.  Two calls read the same clock value 100.  The first
    claims and returns [a].  The second moves [b] to [processing], and
    then fetches by state and time stamp, which [a] matches as well and,
    being older, wins: the call returns [a], not the row it updated. *)
Theorem reserve_job_returns_other_row :
  reserve_job 100 two_pending
  = ([claim 100 (row "a" pending 10); row "b" pending 20],
     Some (claim 100 (row "a" pending 10))) /\
  reserve_job 100 [claim 100 (row "a" pending 10); row "b" pending 20]
  = ([claim 100 (row "a" pending 10); claim 100 (row "b" pending 20)],
     Some (claim 100 (row "a" pending 10))).
Proof. split; reflexivity. Qed.

(** C1: the same defect seen by a round of two workers.  Both read the
    clock value 100 against two runnable jobs: both jobs end up in
    [processing], yet both callers are handed [a] and nobody is handed
    [b]; one distinct job is returned where min(2, 2) = 2 are due. *)
Theorem reserve_round_hands_out_twice :
  map state (fst (reserve_round [100; 100] two_pending))
  = [processing; processing] /\
  returned_ids (snd (reserve_round [100; 100] two_pending))
  = ["a"%string; "a"%string] /\
  ~ NoDup (returned_ids (snd (reserve_round [100; 100] two_pending))).
Proof.
  split; [reflexivity|]. split; [reflexivity|].
  intro Hnd. vm_compute in Hnd. inversion Hnd as [|x l Hx _]; subst.
  apply Hx. left. reflexivity.
Qed.

(** ** A round of reservations on distinct clock readings *)

Lemma claimable_ids_after_claim now k s x :
  In x (claimable_ids
          (map (fun j => if has_id (id k) j then claim now j else j) s)) ->
  In x (claimable_ids s) /\ x <> id k.
Proof.
  unfold claimable_ids, ids. intro Hx.
  apply in_map_iff in Hx. destruct Hx as [r [Hid Hr]].
  apply filter_In in Hr. destruct Hr as [Hr Hc].
  apply in_map_iff in Hr. destruct Hr as [j [Hg Hj]].
  destruct (has_id (id k) j) eqn:Hh.
  - subst r. discriminate Hc.
  - subst r. apply has_id_false in Hh. split; [|congruence].
    apply in_map_iff. exists j. split; [exact Hid|].
    apply filter_In. split; assumption.
Qed.

Lemma count_after_claim now k s :
  NoDup (ids s) -> In k s -> claimable k = true ->
  S (List.length
       (filter claimable
          (map (fun j => if has_id (id k) j then claim now j else j) s)))
  = List.length (filter claimable s).
Proof.
  induction s as [|j s IH]; simpl; [contradiction|].
  intros Hnd Hin Hck. inversion Hnd as [|? ? Hfresh Hnd']; subst.
  destruct Hin as [->|Hin].
  - assert (has_id (id k) k = true) as -> by (apply has_id_true; reflexivity).
    simpl. rewrite Hck. simpl. f_equal. f_equal. f_equal.
    apply map_unchanged. intros r Hr.
    assert (has_id (id k) r = false) as ->; [|reflexivity].
    apply has_id_false. intro Heq. apply Hfresh. rewrite <- Heq.
    unfold ids. apply in_map. exact Hr.
  - assert (has_id (id k) j = false) as ->.
    { apply has_id_false. intro Heq. apply Hfresh. rewrite Heq.
      unfold ids. apply in_map. exact Hin. }
    destruct (claimable j); simpl; rewrite <- (IH Hnd' Hin Hck); reflexivity.
Qed.

(** X3.  The at-most-one-claim property for a round of [reserve_job] calls
    made one after the other at strictly increasing clock readings, on a table
    whose [processing] rows were stamped before the round and whose
    claimable rows are all due: no job is handed out twice, the number of
    jobs handed out is the least of the number of calls and the number of
    claimable jobs, and each job handed out was claimable. *)
Theorem reserve_round_distinct_ticks clock s :
  unique_ids s = true ->
  StronglySorted Z.lt clock ->
  (forall j t, In j s -> In t clock ->
               state j = processing -> updated_at j < t) ->
  (forall j t, In j s -> In t clock ->
               claimable j = true -> next_run_at j <= t) ->
  NoDup (returned_ids (snd (reserve_round clock s))) /\
  List.length (returned_ids (snd (reserve_round clock s)))
  = Nat.min (List.length clock) (List.length (filter claimable s)) /\
  (forall i, In i (returned_ids (snd (reserve_round clock s))) ->
             In i (claimable_ids s)).
Proof.
  revert s. induction clock as [|t clock IH]; intros s Hu Hsorted Hstamp Hdue.
  - simpl. split; [constructor|]. split; [reflexivity|]. intros i [].
  - inversion Hsorted as [|? ? Hsorted' Hlt]; subst.
    rewrite Forall_forall in Hlt.
    simpl. destruct (reserve_job t s) as [s1 r] eqn:Er.
    destruct (reserve_round clock s1) as [s2 rs] eqn:Ers. simpl.
    destruct (sql_select_first (runnable t) s) as [k|] eqn:Hk.
    + pose proof (sql_select_first_some _ _ _ Hk) as [Hin [Hrun _]].
      rewrite runnable_claimable in Hrun. apply andb_true_iff in Hrun.
      destruct Hrun as [Hck _].
      rewrite (reserve_job_fresh_tick t s k Hu) in Er; [| |exact Hk].
      2:{ intros j Hj Hst Heq.
          specialize (Hstamp j t Hj (or_introl eq_refl) Hst). lia. }
      injection Er as Hs1 <-. symmetry in Hs1.
      assert (unique_ids s1 = true) as Hu1.
      { unfold unique_ids. rewrite Hs1, ids_map; [exact Hu|].
        intro j. destruct (has_id (id k) j); reflexivity. }
      assert (forall j t', In j s1 -> In t' clock ->
                state j = processing -> updated_at j < t') as Hstamp1.
      { intros r t' Hr Ht' Hst. rewrite Hs1 in Hr.
        apply in_map_iff in Hr. destruct Hr as [j [<- Hj]].
        destruct (has_id (id k) j).
        - simpl. apply Hlt. exact Ht'.
        - apply (Hstamp j t' Hj (or_intror Ht') Hst). }
      assert (forall j t', In j s1 -> In t' clock ->
                claimable j = true -> next_run_at j <= t') as Hdue1.
      { intros r t' Hr Ht' Hc. rewrite Hs1 in Hr.
        apply in_map_iff in Hr. destruct Hr as [j [<- Hj]].
        destruct (has_id (id k) j).
        - discriminate Hc.
        - apply (Hdue j t' Hj (or_intror Ht') Hc). }
      specialize (IH s1 Hu1 Hsorted' Hstamp1 Hdue1).
      rewrite Ers in IH. simpl in IH. destruct IH as [Hnd [Hlen Hsub]].
      assert (forall i, In i (returned_ids rs) ->
                In i (claimable_ids s) /\ i <> id k) as Hsub'.
      { intros i Hi. apply (claimable_ids_after_claim t k s).
        rewrite <- Hs1. apply Hsub. exact Hi. }
      simpl. split; [|split].
      * constructor; [|exact Hnd]. intro Hi.
        destruct (Hsub' _ Hi) as [_ Hne]. apply Hne. reflexivity.
      * rewrite Hlen, Hs1.
        rewrite <- (count_after_claim t k s); try assumption.
        -- reflexivity.
        -- apply unique_NoDup. exact Hu.
      * intros i [<-|Hi].
        -- unfold claimable_ids, ids. apply in_map.
           apply filter_In. split; assumption.
        -- apply Hsub'. exact Hi.
    + pose proof (sql_select_first_none _ _ Hk) as Hnone.
      rewrite (reserve_job_none t s Hk) in Er. injection Er as <- <-.
      assert (filter claimable s = []) as Hempty.
      { destruct (filter claimable s) as [|j l] eqn:E; [reflexivity|].
        assert (In j (filter claimable s)) as Hj by (rewrite E; left; reflexivity).
        apply filter_In in Hj. destruct Hj as [Hj Hc].
        pose proof (Hnone j Hj) as Hn. rewrite runnable_claimable, Hc in Hn.
        simpl in Hn. apply Z.leb_gt in Hn.
        specialize (Hdue j t Hj (or_introl eq_refl) Hc). lia. }
      assert (forall j t', In j s -> In t' clock ->
                state j = processing -> updated_at j < t') as Hstamp1
          by (intros j t' Hj Ht'; apply Hstamp; [exact Hj | right; exact Ht']).
      assert (forall j t', In j s -> In t' clock ->
                claimable j = true -> next_run_at j <= t') as Hdue1
          by (intros j t' Hj Ht'; apply Hdue; [exact Hj | right; exact Ht']).
      specialize (IH s Hu Hsorted' Hstamp1 Hdue1).
      rewrite Ers in IH. simpl in IH. destruct IH as [Hnd [Hlen Hsub]].
      simpl. rewrite Hempty in Hlen |- *. simpl in Hlen |- *.
      split; [exact Hnd|]. split; [|exact Hsub].
      rewrite Hlen. rewrite Nat.min_0_r. reflexivity.
Qed.

Lemma reserve_round_distinct_ticks_witness :
  unique_ids two_pending = true /\
  StronglySorted Z.lt [100; 200; 300] /\
  returned_ids (snd (reserve_round [100; 200; 300] two_pending))
  = ["a"%string; "b"%string] /\
  NoDup (returned_ids (snd (reserve_round [100; 200; 300] two_pending))).
Proof.
  assert (StronglySorted Z.lt [100; 200; 300]) as Hsorted.
  { repeat constructor. }
  split; [reflexivity|]. split; [exact Hsorted|]. split; [reflexivity|].
  apply (reserve_round_distinct_ticks [100; 200; 300] two_pending
           eq_refl Hsorted).
  - intros j t [<-|[<-|[]]] _ Hst; discriminate Hst.
  - intros j t [<-|[<-|[]]] [<-|[<-|[<-|[]]]] _; simpl; lia.
Defined.

(** ** list_jobs *)

Lemma insert_by_created_at_perm j rows :
  Permutation (j :: rows) (insert_by_created_at j rows).
Proof.
  induction rows as [|k rows IH]; simpl; [apply Permutation_refl|].
  destruct (created_at j <=? created_at k); [apply Permutation_refl|].
  eapply Permutation_trans; [apply perm_swap|].
  apply perm_skip. exact IH.
Qed.

Lemma order_by_created_at_perm rows :
  Permutation rows (order_by_created_at rows).
Proof.
  induction rows as [|j rows IH]; simpl; [constructor|].
  eapply Permutation_trans; [apply perm_skip; exact IH|].
  apply insert_by_created_at_perm.
Qed.

Lemma insert_by_created_at_sorted j rows :
  Sorted by_created_at rows -> Sorted by_created_at (insert_by_created_at j rows).
Proof.
  induction rows as [|k rows IH]; simpl; intro Hs.
  - repeat constructor.
  - destruct (created_at j <=? created_at k) eqn:E.
    + apply Z.leb_le in E. constructor; [exact Hs|]. constructor. exact E.
    + apply Z.leb_gt in E. inversion Hs as [|? ? Hs' Hhd]; subst.
      constructor; [apply IH; exact Hs'|].
      destruct rows as [|k' rows']; simpl.
      * constructor. unfold by_created_at. lia.
      * destruct (created_at j <=? created_at k'); constructor.
        -- unfold by_created_at. lia.
        -- inversion Hhd; assumption.
Qed.

Lemma order_by_created_at_sorted rows :
  Sorted by_created_at (order_by_created_at rows).
Proof.
  induction rows as [|j rows IH]; simpl; [constructor|].
  apply insert_by_created_at_sorted. exact IH.
Qed.

(** The two readings of [ORDER BY created_at] agree: [LIMIT 1] takes the
    head of the ordered result. *)
Lemma first_by_created_at_head rows :
  first_by_created_at rows = hd_error (order_by_created_at rows).
Proof.
  induction rows as [|j rows IH]; simpl; [reflexivity|].
  rewrite IH. destruct (order_by_created_at rows) as [|k rows']; simpl;
    [reflexivity|].
  unfold older. rewrite Z.leb_antisym.
  destruct (created_at k <? created_at j); reflexivity.
Qed.

(** X5.  [list_jobs] returns exactly the rows of the table, or exactly
    those in the given state, each once, in ascending order of created_at;
    it does not change the table (it is a function of it). *)
Theorem list_jobs_sorted state_filter s :
  Sorted by_created_at (list_jobs state_filter s) /\
  Permutation
    (match state_filter with
     | Some st => filter (fun j => job_state_eqb (state j) st) s
     | None => s
     end)
    (list_jobs state_filter s) /\
  (forall j, In j (list_jobs state_filter s) <->
             In j s /\ match state_filter with
                       | Some st => state j = st
                       | None => True
                       end).
Proof.
  destruct state_filter as [st|]; simpl.
  - split; [apply order_by_created_at_sorted|].
    split; [apply order_by_created_at_perm|].
    intro j. split.
    + intro Hj.
      apply (Permutation_in j (Permutation_sym (order_by_created_at_perm _)))
        in Hj.
      apply filter_In in Hj. destruct Hj as [Hj Hst].
      split; [exact Hj | apply job_state_eqb_eq, Hst].
    + intros [Hj Hst].
      apply (Permutation_in j (order_by_created_at_perm _)).
      apply filter_In. split; [exact Hj | apply job_state_eqb_eq, Hst].
  - split; [apply order_by_created_at_sorted|].
    split; [apply order_by_created_at_perm|].
    intro j. split.
    + intro Hj. split; [|exact I].
      exact (Permutation_in j (Permutation_sym (order_by_created_at_perm _)) Hj).
    + intros [Hj _]. exact (Permutation_in j (order_by_created_at_perm _) Hj).
Qed.

(** ** The table's key *)

(** X4.  Ids are unique across every table that calls can build: the
    primary key holds in all reachable stores. *)
Theorem reachable_ids_unique `{PyRuntime} s :
  reachable s -> NoDup (ids s).
Proof.
  intro Hr. apply unique_NoDup. apply reachable_unique_ids. exact Hr.
Qed.

Lemma reachable_ids_unique_witness :
  @reachable sample_runtime
    (@step sample_runtime [] 100 (Enqueue failing_payload) []) /\
  NoDup (ids (@step sample_runtime [] 100 (Enqueue failing_payload) [])).
Proof.
  assert (@reachable sample_runtime
            (@step sample_runtime [] 100 (Enqueue failing_payload) []))
    as Hr by (apply reach_step, reach_empty).
  split; [exact Hr|].
  exact (@reachable_ids_unique sample_runtime _ Hr).
Defined.

(** ** The scenarios of the specification *)

(** A job enqueued with max_retries 1 whose command keeps failing:
    it starts [pending]; reserved and failed once it is [failed] with
    attempts 1 and due two seconds later; it cannot be reserved before that
    time; reserved again when due and failed again it is [dead] with
    attempts 2, since 2 > 1.  Enqueued, reserved and completed instead, it
    is the one job [list_jobs] reports as [completed]. *)
Theorem retry_then_dead_scenario :
  let rt := sample_runtime in
  let s0 := @step rt [] 1000000 (Enqueue failing_payload) [] in
  let '(s1, r1) := reserve_job 2000000 s0 in
  let s2 := @report rt [] 3000000 r1 1 s1 in
  let '(s3, r3) := reserve_job 4999999 s2 in
  let '(s4, r4) := reserve_job 5000000 s3 in
  let s5 := @report rt [] 6000000 r4 1 s4 in
  map state s0 = [pending] /\
  map state s1 = [processing] /\
  map (fun j => (state j, attempts j, next_run_at j - 3000000)) s2
  = [(failed, 1, 2000000)] /\
  r3 = None /\ s3 = s2 /\
  map state s4 = [processing] /\
  map (fun j => (state j, attempts j, max_retries j)) s5 = [(dead, 2, 1)] /\
  map last_error s5 = [Some (text_of_string "Exit code 1")] /\
  list_jobs (Some completed) (@report rt [] 3000000 r1 0 s1)
  = map (complete 3000000) s1.
Proof. vm_compute. repeat split. Qed.

(** ** The worker loop keeps to the machine *)

(** X7.  When [reserve_job] is called on a clock reading no [processing]
    row carries and a job is runnable, the worker holds the claimed row,
    and the report it then makes ([mark_completed] on exit status 0,
    [mark_failed] with the row's attempts and max_retries otherwise) is
    addressed to a job in state [processing] and passes the row's own
    max_retries. *)
Theorem worker_report_is_guarded `{PyRuntime} cfg now now' returncode s k :
  unique_ids s = true ->
  (forall j, In j s -> state j = processing -> updated_at j <> now) ->
  sql_select_first (runnable now) s = Some k ->
  exists r, snd (reserve_job now s) = Some r /\
            report cfg now' (Some r) returncode (fst (reserve_job now s))
            = step cfg now' (report_op r returncode)
                (fst (reserve_job now s)) /\
            addresses_processing (report_op r returncode)
              (fst (reserve_job now s)) /\
            keeps_bound cfg (report_op r returncode)
              (fst (reserve_job now s)).
Proof.
  intros Hu Hfresh Hk.
  pose proof (sql_select_first_some _ _ _ Hk) as [Hin _].
  rewrite (reserve_job_fresh_tick now s k Hu Hfresh Hk). simpl fst. simpl snd.
  set (s1 := map (fun j => if has_id (id k) j then claim now j else j) s).
  assert (forall j, In j s1 -> id j = id k -> j = claim now k) as Hown.
  { intros r Hr Hid. apply in_map_iff in Hr. destruct Hr as [j [<- Hj]].
    destruct (has_id (id k) j) eqn:E.
    - apply has_id_true in E.
      assert (j = k) as -> by (apply (unique_ids_inj s); assumption).
      reflexivity.
    - apply has_id_false in E. contradiction. }
  exists (claim now k). split; [reflexivity|].
  unfold report, report_op. simpl id.
  destruct (returncode =? 0); simpl; (split; [reflexivity|]); split;
    try exact I;
    intros j Hj Hid; rewrite (Hown j Hj Hid); simpl; try reflexivity; lia.
Qed.

Lemma worker_report_is_guarded_witness :
  unique_ids two_pending = true /\
  sql_select_first (runnable 100) two_pending = Some (row "a" pending 10) /\
  exists r, snd (reserve_job 100 two_pending) = Some r /\
            @report sample_runtime [] 200 (Some r) 1
              (fst (reserve_job 100 two_pending))
            = @step sample_runtime [] 200 (report_op r 1)
                (fst (reserve_job 100 two_pending)) /\
            addresses_processing (report_op r 1)
              (fst (reserve_job 100 two_pending)) /\
            keeps_bound [] (report_op r 1)
              (fst (reserve_job 100 two_pending)).
Proof.
  split; [reflexivity|]. split; [reflexivity|].
  apply (@worker_report_is_guarded sample_runtime [] 100 200 1 two_pending
           (row "a" pending 10) eq_refl); [|reflexivity].
  intros j [<-|[<-|[]]] Hst; discriminate Hst.
Defined.

(** ** iso: text order is time order *)

Lemma iso_layout dt :
  iso dt
  = digits 4 (year dt) (String "-"
      (digits 2 (month dt) (String "-"
         (digits 2 (day dt) (String "T"
            (digits 2 (hour dt) (String ":"
               (digits 2 (minute dt) (String ":"
                  (digits 2 (second dt) (String "."
                     (digits 6 (microsecond dt) "Z"))))))))))))%string.
Proof. reflexivity. Qed.

Lemma digit_compare x y :
  (x < 10)%N -> (y < 10)%N ->
  Ascii.compare (digit x) (digit y) = (x ?= y)%N.
Proof.
  intros Hx Hy. unfold Ascii.compare, digit.
  rewrite !N_ascii_embedding by lia.
  destruct (N.compare_spec x y) as [E|E|E].
  - apply N.compare_eq_iff. lia.
  - apply N.compare_lt_iff. lia.
  - apply N.compare_gt_iff. lia.
Qed.

Lemma compare_div_mod x y :
  (x ?= y)%N
  = then_compare (x / 10 ?= y / 10)%N (x mod 10 ?= y mod 10)%N.
Proof.
  pose proof (N.div_mod x 10 ltac:(lia)) as Hx.
  pose proof (N.div_mod y 10 ltac:(lia)) as Hy.
  pose proof (N.mod_lt x 10 ltac:(lia)) as Hxm.
  pose proof (N.mod_lt y 10 ltac:(lia)) as Hym.
  unfold then_compare.
  remember (x / 10)%N as a eqn:Ea. remember (y / 10)%N as c eqn:Ec.
  remember (x mod 10)%N as b eqn:Eb. remember (y mod 10)%N as d eqn:Ed.
  clear Ea Ec Eb Ed.
  destruct (N.compare_spec a c) as [E|E|E].
  - destruct (N.compare_spec b d) as [F|F|F].
    + apply N.compare_eq_iff. lia.
    + apply N.compare_lt_iff. lia.
    + apply N.compare_gt_iff. lia.
  - apply N.compare_lt_iff. lia.
  - apply N.compare_gt_iff. lia.
Qed.

Lemma string_compare_cons c r1 r2 :
  String.compare (String c r1) (String c r2) = String.compare r1 r2.
Proof.
  simpl. assert (Ascii.compare c c = Eq) as ->; [|reflexivity].
  unfold Ascii.compare. apply N.compare_refl.
Qed.

(** Two fields printed at the same width compare like the numbers, and on
    a tie the comparison moves on to what follows. *)
Lemma digits_compare width x y r1 r2 :
  (x < 10 ^ N.of_nat width)%N -> (y < 10 ^ N.of_nat width)%N ->
  String.compare (digits width x r1) (digits width y r2)
  = then_compare (x ?= y)%N (String.compare r1 r2).
Proof.
  revert x y r1 r2. induction width as [|w IH]; intros x y r1 r2 Hx Hy.
  - simpl in *. assert (x = 0%N) as -> by lia. assert (y = 0%N) as -> by lia.
    reflexivity.
  - rewrite Nat2N.inj_succ, N.pow_succ_r' in Hx, Hy.
    simpl digits. rewrite IH.
    + simpl String.compare.
      rewrite digit_compare by (apply N.mod_lt; lia).
      rewrite (compare_div_mod x y). unfold then_compare.
      destruct (x / 10 ?= y / 10)%N; try reflexivity.
      destruct (x mod 10 ?= y mod 10)%N; reflexivity.
    + apply N.Div0.div_lt_upper_bound. lia.
    + apply N.Div0.div_lt_upper_bound. lia.
Qed.

Lemma string_compare_refl x : String.compare x x = Eq.
Proof.
  induction x as [|c x IH]; [reflexivity|].
  rewrite string_compare_cons. exact IH.
Qed.

Lemma then_compare_eq c : then_compare c Eq = c.
Proof. destruct c; reflexivity. Qed.

Lemma then_compare_is_eq c d : then_compare c d = Eq -> c = Eq /\ d = Eq.
Proof. destruct c; simpl; intro Hd; try discriminate. split; [reflexivity | exact Hd]. Qed.

Lemma digits_length width n rest :
  String.length (digits width n rest) = (width + String.length rest)%nat.
Proof.
  revert n rest. induction width as [|w IH]; intros n rest; simpl;
    [reflexivity|].
  rewrite IH. simpl. lia.
Qed.

Lemma printable_bounds dt :
  printable dt = true ->
  (1000 <= year dt < 10000 /\ month dt < 100 /\ day dt < 100 /\
   hour dt < 100 /\ minute dt < 100 /\ second dt < 100 /\
   microsecond dt < 1000000)%N.
Proof.
  unfold printable. rewrite !andb_true_iff, N.leb_le, !N.ltb_lt. tauto.
Qed.

(** X8.  On datetimes whose year has four digits, the strings [iso]
    produces are 27 characters long and compare, as text, exactly as the
    datetimes compare; so [iso] is injective and the SQL comparisons
    [next_run_at <= ?], [last_heartbeat >= ?] and [ORDER BY created_at] on
    stored strings are comparisons of instants. *)
Theorem iso_orders_like_datetime a b :
  printable a = true -> printable b = true ->
  String.compare (iso a) (iso b) = datetime_compare a b /\
  (String.leb (iso a) (iso b) = true <-> datetime_compare a b <> Gt) /\
  (iso a = iso b -> a = b) /\
  String.length (iso a) = 27%nat.
Proof.
  intros Ha Hb.
  apply printable_bounds in Ha. apply printable_bounds in Hb.
  assert (String.compare (iso a) (iso b) = datetime_compare a b) as Hcmp.
  { rewrite !iso_layout. unfold datetime_compare.
    repeat (rewrite digits_compare by (simpl; lia);
            try rewrite string_compare_cons).
    simpl String.compare. rewrite then_compare_eq. reflexivity. }
  split; [exact Hcmp|]. split; [|split].
  - unfold String.leb. rewrite Hcmp.
    destruct (datetime_compare a b); split; intro H;
      try reflexivity; try discriminate; congruence.
  - intro Heq. pose proof (string_compare_refl (iso b)) as Hrefl.
    rewrite <- Heq, Hcmp in Hrefl at 1. unfold datetime_compare in Hrefl.
    repeat (apply then_compare_is_eq in Hrefl;
            let H := fresh "E" in destruct Hrefl as [H Hrefl];
            apply N.compare_eq_iff in H).
    apply N.compare_eq_iff in Hrefl.
    destruct a, b; simpl in *; congruence.
  - rewrite iso_layout. repeat (rewrite digits_length; simpl String.length).
    reflexivity.
Qed.

Lemma iso_orders_like_datetime_witness :
  printable sample_datetime = true /\
  iso sample_datetime = "2026-11-03T14:05:09.000017Z"%string /\
  String.length (iso sample_datetime) = 27%nat.
Proof.
  split; [reflexivity|]. split; [reflexivity|].
  exact (proj2 (proj2 (proj2 (iso_orders_like_datetime
           sample_datetime sample_datetime eq_refl eq_refl)))).
Defined.

(** ** Config: set and get *)

Lemma lookup_set_same cfg key value :
  Config.lookup key (Config.set cfg key value) = Some value.
Proof.
  induction cfg as [|[k v] cfg IH]; simpl.
  - rewrite String.eqb_refl. reflexivity.
  - destruct (String.eqb k key) eqn:E; simpl; rewrite E; [reflexivity | exact IH].
Qed.

Lemma lookup_set_other cfg key value key' :
  key' <> key ->
  Config.lookup key' (Config.set cfg key value) = Config.lookup key' cfg.
Proof.
  intro Hne. induction cfg as [|[k v] cfg IH]; simpl.
  - assert (String.eqb key key' = false) as ->; [|reflexivity].
    apply String.eqb_neq. congruence.
  - destruct (String.eqb k key) eqn:E; simpl.
    + apply String.eqb_eq in E. subst k.
      assert (String.eqb key key' = false) as ->; [|reflexivity].
      apply String.eqb_neq. congruence.
    + rewrite IH. reflexivity.
Qed.

Lemma keys_set cfg key value :
  Config.keys (Config.set cfg key value)
  = if existsb (String.eqb key) (Config.keys cfg) then Config.keys cfg
    else Config.keys cfg ++ [key].
Proof.
  induction cfg as [|[k v] cfg IH]; simpl; [reflexivity|].
  rewrite (String.eqb_sym key k).
  destruct (String.eqb k key) eqn:E; simpl.
  - apply String.eqb_eq in E. subst k. reflexivity.
  - fold (Config.keys cfg). fold (Config.keys (Config.set cfg key value)).
    rewrite IH. destruct (existsb (String.eqb key) (Config.keys cfg));
      reflexivity.
Qed.

(** X9.  [Config.set] followed by [Config.get] of the same key returns
    the value set, whatever the table held; every other key reads as
    before; a second [set] of the key overwrites the first; the keys of the
    table stay pairwise distinct, a key already present keeping its place.
    A key with a default never reads as unset. *)
Theorem config_set_then_get cfg key value :
  Config.get (Config.set cfg key value) key = Some value /\
  Config.get_int (Config.set cfg key value) key = Some value /\
  (forall key', key' <> key ->
     Config.get (Config.set cfg key value) key' = Config.get cfg key') /\
  (forall value',
     Config.set (Config.set cfg key value) key value'
     = Config.set cfg key value') /\
  (NoDup (Config.keys cfg) ->
     NoDup (Config.keys (Config.set cfg key value))) /\
  (forall d, Config.lookup key Config.DEFAULTS = Some d ->
     Config.get cfg key <> None).
Proof.
  split; [|split; [|split; [|split; [|split]]]].
  - unfold Config.get. rewrite lookup_set_same. reflexivity.
  - unfold Config.get_int, Config.get. rewrite lookup_set_same. reflexivity.
  - intros key' Hne. unfold Config.get.
    rewrite lookup_set_other by exact Hne. reflexivity.
  - intro value'. induction cfg as [|[k v] cfg IH]; simpl.
    + rewrite String.eqb_refl. reflexivity.
    + destruct (String.eqb k key) eqn:E; simpl; rewrite E;
        [reflexivity | rewrite IH; reflexivity].
  - intro Hnd. rewrite keys_set.
    destruct (existsb (String.eqb key) (Config.keys cfg)) eqn:E;
      [exact Hnd|].
    apply NoDup_app; [exact Hnd | repeat constructor; intros [] |].
    intros x Hx [<-|[]].
    assert (existsb (String.eqb key) (Config.keys cfg) = true) as E'.
    { apply existsb_exists. exists key.
      split; [exact Hx | apply String.eqb_refl]. }
    congruence.
  - intros d Hd. unfold Config.get.
    destruct (Config.lookup key cfg); [discriminate|].
    rewrite Hd. discriminate.
Qed.

(** X10.  A setting takes effect on the calls made after it, and a zero
    never does: an [enqueue] without [max_retries] made under
    [set("max_retries", v)] creates a job with max_retries [v], or 3 when
    [v] is 0; a [mark_failed] made under [set("backoff_base", v)] that
    goes through and leaves the job [failed] delays it by [v ^ attempts]
    seconds, or [2 ^ attempts] when [v] is 0, whatever base was in force
    when the job was enqueued. *)
Theorem setting_takes_effect `{PyRuntime} cfg now v :
  (forall p s s' j,
     p_max_retries p = None ->
     enqueue (Config.set cfg "max_retries" v) now p s = (s', inr j) ->
     max_retries j = if v =? 0 then 3 else v) /\
  (forall i a m e s j,
     get_job i s = Some j -> 0 <= a -> a + 1 <= m ->
     storable (Config.set cfg "backoff_base" v) now a m e = true ->
     exists s' j',
       mark_failed (Config.set cfg "backoff_base" v) now i a m e s
       = (s', inr tt) /\
       get_job i s' = Some j' /\
       state j' = failed /\
       next_run_at j'
       = now + (if v =? 0 then 2 else v) ^ (a + 1) * 1000000).
Proof.
  split.
  - intros p s s' j Hp He.
    destruct (enqueue_cases (Config.set cfg "max_retries" v) now p s)
      as [[e E]|[k [E [_ [_ [_ [_ [Hm _]]]]]]]]; rewrite E in He.
    + discriminate He.
    + injection He as _ <-. rewrite Hm, Hp. simpl.
      unfold py_or, Config.get_int, Config.get.
      rewrite lookup_set_same. reflexivity.
  - intros i a m e s j Hj Ha Hm Hok.
    pose proof (get_job_mark_failed _ now i a m e s j Hok Hj) as Hrow.
    rewrite (mark_failed_returns _ now i a m e s Hok) in Hrow |- *.
    eexists. eexists. split; [reflexivity|]. split; [exact Hrow|].
    unfold written_row. simpl.
    assert ((a + 1 >? m) = false) as ->.
    { rewrite Z.gtb_ltb. apply Z.ltb_ge. lia. }
    split; [reflexivity|].
    rewrite power_us_nonneg by lia.
    unfold py_or, Config.get_int, Config.get.
    rewrite lookup_set_same. reflexivity.
Qed.

Lemma setting_takes_effect_witness :
  (p_max_retries bare_payload = None /\
   exists s' j,
     @enqueue sample_runtime (Config.set [] "max_retries" 0) 1234567
       bare_payload [] = (s', inr j) /\
     max_retries j = 3) /\
  (get_job "a" [row "a" processing 10] = Some (row "a" processing 10) /\
   0 <= 1 /\ 1 + 1 <= 3 /\
   @storable sample_runtime (Config.set [] "backoff_base" 3) 100 1 3 None
   = true /\
   exists s' j',
     @mark_failed sample_runtime (Config.set [] "backoff_base" 3) 100
       "a" 1 3 None [row "a" processing 10] = (s', inr tt) /\
     get_job "a" s' = Some j' /\
     state j' = failed /\
     next_run_at j' = 100 + (if 3 =? 0 then 2 else 3) ^ (1 + 1) * 1000000).
Proof.
  split.
  - split; [reflexivity|].
    eexists. eexists. split; [reflexivity|].
    exact (proj1 (@setting_takes_effect sample_runtime [] 1234567 0)
             bare_payload [] _ _ eq_refl eq_refl).
  - split; [reflexivity|]. split; [lia|]. split; [lia|].
    split; [reflexivity|].
    exact (proj2 (@setting_takes_effect sample_runtime [] 100 3)
             "a"%string 1 3 None [row "a" processing 10] _ eq_refl
             ltac:(lia) ltac:(lia) eq_refl).
Defined.

(** ** get_status *)

Lemma count_state_partition s :
  (count_state pending s + count_state processing s
   + count_state completed s + count_state failed s
   + count_state dead s)%nat = List.length s.
Proof.
  unfold count_state. induction s as [|j s IH]; simpl; [reflexivity|].
  destruct (state j); simpl; lia.
Qed.

Lemma list_jobs_length st s :
  List.length (list_jobs (Some st) s) = count_state st s.
Proof.
  unfold list_jobs, count_state. symmetry.
  apply Permutation_length. apply order_by_created_at_perm.
Qed.

(** X11.  [get_status] reports one count for each of the five states, in
    the order pending, processing, completed, failed, dead; the counts add
    up to the number of jobs in the table, and each is the number of jobs
    [list_jobs] lists for that state; the number of active workers is at
    most the number of registered ones. *)
Theorem get_status_counts now s reg :
  map fst (job_counts (get_status now s reg)) = states /\
  fold_right Nat.add 0%nat (map snd (job_counts (get_status now s reg)))
  = List.length s /\
  (forall st,
     In (st, List.length (list_jobs (Some st) s))
        (job_counts (get_status now s reg))) /\
  (active (get_status now s reg) <= List.length (Workers.rows reg))%nat.
Proof.
  split; [reflexivity|]. split; [|split].
  - simpl. pose proof (count_state_partition s). lia.
  - intro st. rewrite list_jobs_length. destruct st; simpl; tauto.
  - simpl. apply filter_length_le.
Qed.

(** ** The worker registry *)

Lemma unregister_rows pid reg w :
  In w (Workers.rows (unregister_worker pid reg))
  <-> In w (Workers.rows reg) /\ Workers.pid w <> pid.
Proof.
  simpl. rewrite filter_In, negb_true_iff, Z.eqb_neq. reflexivity.
Qed.

Lemma filter_none {A} (c : A -> bool) (l : list A) :
  (forall x, In x l -> c x = true) -> filter c l = l.
Proof.
  intro Hc. induction l as [|x l IH]; simpl; [reflexivity|].
  rewrite (Hc x (or_introl eq_refl)). f_equal.
  apply IH. intros y Hy. apply Hc. right. exact Hy.
Qed.

(** X12.  [unregister_worker] deletes every row of the pid and no other;
    after [register_worker] on a registry that did not know the pid it
    restores the rows that were there; on rows already gone it does
    nothing.  [update_heartbeat] of a pid the registry does not know
    changes nothing, and of a known pid rewrites the heartbeat of its rows
    only. *)
Theorem unregister_undoes_register now pid name reg :
  (forall w, In w (Workers.rows (unregister_worker pid reg))
             <-> In w (Workers.rows reg) /\ Workers.pid w <> pid) /\
  (~ In pid (pids reg) ->
     Workers.rows (unregister_worker pid (register_worker now pid name reg))
     = Workers.rows reg) /\
  unregister_worker pid (unregister_worker pid reg)
  = unregister_worker pid reg /\
  (~ In pid (pids reg) -> update_heartbeat now pid reg = reg) /\
  (forall w, In w (Workers.rows reg) -> Workers.pid w <> pid ->
             In w (Workers.rows (update_heartbeat now pid reg))) /\
  (forall w, In w (Workers.rows (update_heartbeat now pid reg)) ->
             Workers.pid w = pid -> Workers.last_heartbeat w = now).
Proof.
  split; [|split; [|split; [|split; [|split]]]].
  - intro w. apply unregister_rows.
  - intro Hnew. simpl. rewrite filter_app. simpl.
    rewrite Z.eqb_refl. simpl. rewrite app_nil_r.
    apply filter_none. intros w Hw. apply negb_true_iff, Z.eqb_neq.
    intro Heq. apply Hnew. unfold pids. rewrite <- Heq.
    apply in_map. exact Hw.
  - unfold unregister_worker. simpl. f_equal.
    apply filter_none. intros w Hw. apply filter_In in Hw. apply Hw.
  - intro Hnew. destruct reg as [rows seq]. unfold update_heartbeat. simpl.
    f_equal. rewrite <- (map_id rows) at 2. apply map_ext_in.
    intros w Hw. destruct (Workers.pid w =? pid) eqn:E; [|reflexivity].
    exfalso. apply Z.eqb_eq in E. apply Hnew. unfold pids. simpl.
    rewrite <- E. apply in_map. exact Hw.
  - intros w Hw Hne. simpl. apply in_map_iff. exists w.
    split; [|exact Hw]. apply Z.eqb_neq in Hne. rewrite Hne. reflexivity.
  - intros w Hw Hpid. simpl in Hw. apply in_map_iff in Hw.
    destruct Hw as [w0 [<- Hw0]].
    destruct (Workers.pid w0 =? pid) eqn:E; [reflexivity|].
    apply Z.eqb_neq in E. simpl in Hpid. contradiction.
Qed.

Lemma unregister_undoes_register_witness :
  ~ In 8 (pids one_worker) /\
  Workers.rows (unregister_worker 8
                  (register_worker 60 8 "worker-2" one_worker))
  = Workers.rows one_worker.
Proof.
  assert (~ In 8 (pids one_worker)) as Hnew.
  { simpl. intros [H|[]]. discriminate H. }
  split; [exact Hnew|].
  exact (proj1 (proj2 (unregister_undoes_register 60 8 "worker-2"
                         one_worker)) Hnew).
Defined.

(** X13.  Worker ids are never reused: on a registry whose ids are
    distinct and bounded by its sequence, every registry operation keeps
    them so, and [register_worker] gives the new row an id larger than any
    the table ever held, also after rows were deleted. *)
Theorem worker_ids_never_reused now pid name reg :
  well_sequenced reg ->
  well_sequenced (register_worker now pid name reg) /\
  well_sequenced (update_heartbeat now pid reg) /\
  well_sequenced (unregister_worker pid reg) /\
  (forall w, In w (Workers.rows reg) ->
     Workers.id w
     < Workers.sequence
         (register_worker now pid name (unregister_worker pid reg))) /\
  exists w, Workers.rows (register_worker now pid name reg)
            = Workers.rows reg ++ [w] /\
            Workers.id w = Workers.sequence reg + 1 /\
            Workers.pid w = pid /\
            Workers.last_heartbeat w = now /\ Workers.started_at w = now.
Proof.
  intros [Hle Hnd]. rewrite Forall_forall in Hle.
  split; [|split; [|split; [|split]]].
  - split; simpl.
    + apply Forall_app. split.
      * apply Forall_forall. intros w Hw. specialize (Hle w Hw). lia.
      * constructor; [simpl; lia | constructor].
    + rewrite map_app. simpl.
      apply NoDup_app; [exact Hnd | repeat constructor; intros [] |].
      intros x Hx [<-|[]]. apply in_map_iff in Hx.
      destruct Hx as [w [Hid Hw]]. specialize (Hle w Hw). lia.
  - split; simpl.
    + apply Forall_forall. intros w Hw. apply in_map_iff in Hw.
      destruct Hw as [w0 [<- Hw0]]. specialize (Hle w0 Hw0).
      destruct (Workers.pid w0 =? pid); simpl; lia.
    + rewrite map_map.
      rewrite (map_ext _ Workers.id); [exact Hnd|].
      intro w. destruct (Workers.pid w =? pid); reflexivity.
  - split; simpl.
    + apply Forall_forall. intros w Hw. apply filter_In in Hw.
      apply Hle, Hw.
    + clear Hle. induction (Workers.rows reg) as [|w rows IH]; simpl;
        [constructor|].
      inversion Hnd as [|? ? Hw Hrows]; subst.
      destruct (negb (Workers.pid w =? pid)); [|apply IH; exact Hrows].
      simpl. constructor; [|apply IH; exact Hrows].
      intro Hin. apply Hw. apply in_map_iff in Hin.
      destruct Hin as [w' [Hid Hw']]. apply filter_In in Hw'.
      apply in_map_iff. exists w'. split; [exact Hid | apply Hw'].
  - intros w Hw. simpl. specialize (Hle w Hw). lia.
  - eexists. split; [reflexivity|]. repeat split.
Qed.

Lemma worker_ids_never_reused_witness :
  well_sequenced one_worker /\
  well_sequenced (register_worker 60 8 "worker-2" one_worker).
Proof.
  assert (well_sequenced one_worker) as Hw.
  { split; simpl.
    - constructor; [simpl; lia | constructor].
    - constructor; [intros [] | constructor]. }
  split; [exact Hw|].
  exact (proj1 (worker_ids_never_reused 60 8 "worker-2" one_worker Hw)).
Defined.

(** X14.  The liveness window of [get_status]: a worker counts as active
    exactly when its last heartbeat is at most ten seconds old, a
    heartbeat of exactly ten seconds still counting.  So a worker that
    registered or sent a heartbeat at time [t] is counted at every query
    time up to [t] plus ten seconds, and a registry none of whose rows was
    heard of in the last ten seconds reports no active worker, although
    the rows are still there. *)
Theorem liveness_window now s reg :
  (forall w, is_active now w = true
             <-> now - Workers.last_heartbeat w <= 10000000) /\
  (forall t pid name, now <= t + 10000000 ->
     (1 <= active (get_status now s (register_worker t pid name reg)))%nat) /\
  (forall t pid, now <= t + 10000000 -> In pid (pids reg) ->
     (1 <= active (get_status now s (update_heartbeat t pid reg)))%nat) /\
  ((forall w, In w (Workers.rows reg) ->
              Workers.last_heartbeat w + 10000000 < now) ->
     active (get_status now s reg) = 0%nat).
Proof.
  assert (forall w, is_active now w = true
                    <-> now - Workers.last_heartbeat w <= 10000000) as Hact.
  { intro w. unfold is_active. rewrite Z.leb_le. lia. }
  assert (forall rows w, In w rows -> is_active now w = true ->
            (1 <= List.length (filter (is_active now) rows))%nat) as Hone.
  { intros rows w Hw Ha.
    assert (In w (filter (is_active now) rows)) as Hin
        by (apply filter_In; split; assumption).
    destruct (filter (is_active now) rows); [contradiction | simpl; lia]. }
  split; [exact Hact|]. split; [|split].
  - intros t pid name Ht. simpl.
    eapply Hone; [apply in_or_app; right; left; reflexivity|].
    apply Hact. simpl. lia.
  - intros t pid Ht Hpid. simpl. unfold pids in Hpid.
    apply in_map_iff in Hpid. destruct Hpid as [w [Hw Hin]].
    eapply (Hone _ (beat t w)).
    + apply in_map_iff. exists w. split; [|exact Hin].
      apply Z.eqb_eq in Hw. rewrite Hw. reflexivity.
    + apply Hact. simpl. lia.
  - intro Hold. simpl.
    destruct (filter (is_active now) (Workers.rows reg)) as [|w l] eqn:E;
      [reflexivity|].
    assert (In w (filter (is_active now) (Workers.rows reg))) as Hin
        by (rewrite E; left; reflexivity).
    apply filter_In in Hin. destruct Hin as [Hin Ha].
    apply Hact in Ha. specialize (Hold w Hin). lia.
Qed.

Lemma liveness_window_witness :
  60 <= 50 + 10000000 /\
  In 7 (pids one_worker) /\
  (1 <= active (get_status 60 [] (update_heartbeat 50 7 one_worker)))%nat.
Proof.
  assert (In 7 (pids one_worker)) as Hpid by (left; reflexivity).
  split; [lia|]. split; [exact Hpid|].
  exact (proj1 (proj2 (proj2 (liveness_window 60 [] one_worker)))
           50 7 ltac:(lia) Hpid).
Defined.

(** ** Who is served, and when *)

Lemma reserve_job_keeps_row now s j :
  unique_ids s = true -> In j s -> runnable now j = false ->
  get_job (id j) (fst (reserve_job now s)) = Some j.
Proof.
  intros Hu Hj Hrun. rewrite reserve_job_rows.
  rewrite get_job_map
    by (intro r; destruct (claimed_by now s r); reflexivity).
  rewrite (get_job_unique s j Hu Hj). simpl.
  destruct (claimed_by now s j) eqn:Hc; [|reflexivity].
  pose proof (claimed_by_runnable now s j Hu Hj Hc). congruence.
Qed.

Lemma reserve_job_serves now s j :
  unique_ids s = true -> In j s -> runnable now j = true ->
  exists k, sql_select_first (runnable now) s = Some k /\
            created_at k <= created_at j /\
            get_job (id k) (fst (reserve_job now s)) = Some (claim now k) /\
            ((forall r, In r s -> runnable now r = true ->
                        r = j \/ created_at j < created_at r) -> k = j).
Proof.
  intros Hu Hj Hrun.
  destruct (sql_select_first_found _ _ _ Hj Hrun) as [k Hk].
  pose proof (sql_select_first_some _ _ _ Hk) as [Hin [Hkrun Hmin]].
  exists k. split; [exact Hk|]. split; [apply Hmin; assumption|]. split.
  - rewrite (reserve_job_rows_some now s k Hk).
    change (map _ s) with (fst (sql_update (has_id (id k)) (claim now) s)).
    rewrite (get_job_update (has_id (id k)) (claim now) (fun _ => eq_refl)
               (id k) s k (get_job_unique s k Hu Hin)).
    assert (has_id (id k) k = true) as -> by (apply has_id_true; reflexivity).
    reflexivity.
  - intro Hyoung. destruct (Hyoung k Hin Hkrun) as [Heq|Hlt]; [exact Heq|].
    specialize (Hmin j Hj Hrun). lia.
Qed.

(** X19.  [reserve_job] leaves alone every job that is not due: a job
    that is [completed], [dead] or [processing], or whose next_run_at is
    later than the clock reading of the call, is the same row after the
    call, and on a fresh clock reading it is not the job handed out. *)
Theorem reserve_job_spares_the_rest now s j :
  unique_ids s = true -> In j s ->
  state j = completed \/ state j = dead \/ state j = processing
  \/ now < next_run_at j ->
  get_job (id j) (fst (reserve_job now s)) = Some j /\
  (unstamped now s ->
   forall r, snd (reserve_job now s) = Some r -> id r <> id j).
Proof.
  intros Hu Hj Hnot.
  assert (runnable now j = false) as Hrun.
  { unfold runnable. destruct Hnot as [E|[E|[E|E]]];
      try (rewrite E; reflexivity).
    destruct (state j); try reflexivity; apply Z.leb_gt; exact E. }
  split; [exact (reserve_job_keeps_row now s j Hu Hj Hrun)|].
  intros Hfresh r Hr Hid.
  destruct (sql_select_first (runnable now) s) as [k|] eqn:Hk.
  - rewrite (reserve_job_fresh_tick now s k Hu Hfresh Hk) in Hr.
    simpl in Hr. injection Hr as <-. simpl in Hid.
    pose proof (sql_select_first_some _ _ _ Hk) as [Hin [Hkrun _]].
    assert (k = j) as -> by (apply (unique_ids_inj s); assumption).
    congruence.
  - rewrite (reserve_job_none now s Hk) in Hr. discriminate Hr.
Qed.

Lemma reserve_job_spares_the_rest_witness :
  unique_ids [dead_row; row "b" pending 20] = true /\
  In dead_row [dead_row; row "b" pending 20] /\
  get_job "a" (fst (reserve_job 100 [dead_row; row "b" pending 20]))
  = Some dead_row.
Proof.
  assert (In dead_row [dead_row; row "b" pending 20]) as Hin
      by (left; reflexivity).
  split; [reflexivity|]. split; [exact Hin|].
  exact (proj1 (reserve_job_spares_the_rest 100
                  [dead_row; row "b" pending 20] dead_row eq_refl Hin
                  (or_intror (or_introl eq_refl)))).
Defined.



(** X21.  What [enqueue] returns is what it stored, and the job is due at
    once: looking the new id up gives the returned job; at any clock
    reading from the time of the call on, [reserve_job] claims some job,
    the new one unless an older job is due; and when every other due job
    is strictly younger it is the new one that is claimed. *)
Theorem enqueued_job_is_served `{PyRuntime} cfg t p s s' j :
  unique_ids s = true ->
  enqueue cfg t p s = (s', inr j) ->
  get_job (id j) s' = Some j /\
  forall now, t <= now ->
    exists k, sql_select_first (runnable now) s' = Some k /\
              created_at k <= created_at j /\
              get_job (id k) (fst (reserve_job now s')) = Some (claim now k) /\
              ((forall r, In r s' -> runnable now r = true ->
                          r = j \/ created_at j < created_at r) -> k = j).
Proof.
  intros Hu He.
  assert (unique_ids s' = true) as Hu'.
  { pose proof (step_unique_ids cfg t (Enqueue p) s Hu) as Hs.
    simpl in Hs. rewrite He in Hs. exact Hs. }
  destruct (enqueue_cases cfg t p s)
    as [[e E]|[k [E [_ [Hst [Hn _]]]]]]; rewrite E in He;
    [discriminate He|].
  injection He as <- <-.
  assert (In k (s ++ [k])) as Hin
      by (apply in_or_app; right; left; reflexivity).
  split; [exact (get_job_unique _ k Hu' Hin)|].
  intros now Hnow. apply reserve_job_serves; [exact Hu' | exact Hin|].
  unfold runnable. rewrite Hst, Hn. apply Z.leb_le. exact Hnow.
Qed.

Lemma enqueued_job_is_served_witness :
  unique_ids [row "a" completed 10] = true /\
  exists s' j,
    @enqueue sample_runtime [] 1234567 bare_payload [row "a" completed 10]
    = (s', inr j) /\
    get_job (id j) s' = Some j.
Proof.
  split; [reflexivity|].
  eexists. eexists. split; [reflexivity|].
  exact (proj1 (@enqueued_job_is_served sample_runtime [] 1234567
                  bare_payload [row "a" completed 10] _ _ eq_refl eq_refl)).
Defined.

(** X22.  A job brought back from the dead-letter queue is due at once
    and keeps its place in the order: at any clock reading from the time
    of the retry on, [reserve_job] claims some job, the retried one unless
    an older job is due (its created_at is the original one); and its
    retry budget is whole again, its attempts being 0. *)
Theorem retried_job_is_served t i s j :
  unique_ids s = true -> get_job i s = Some j -> state j = dead ->
  let s' := retry_dead_job t i s in
  exists j', get_job i s' = Some j' /\
             attempts j' = 0 /\ created_at j' = created_at j /\
             forall now, t <= now ->
               exists k, sql_select_first (runnable now) s' = Some k /\
                         created_at k <= created_at j /\
                         get_job (id k) (fst (reserve_job now s'))
                         = Some (claim now k) /\
                         ((forall r, In r s' -> runnable now r = true ->
                                     r = j' \/ created_at j' < created_at r) ->
                          k = j').
Proof.
  intros Hu Hj Hdead s'.
  assert (unique_ids s' = true) as Hu'.
  { unfold s', unique_ids. rewrite retry_dead_job_rows, ids_map; [exact Hu|].
    intro r. destruct (has_id i r && job_state_eqb (state r) dead);
      reflexivity. }
  pose proof (get_job_retry_dead_job t i s j Hj) as Hj'.
  rewrite Hdead in Hj'. simpl in Hj'. fold s' in Hj'.
  destruct (get_job_in _ _ _ Hj') as [Hin' _].
  exists (revive t j). split; [exact Hj'|]. split; [reflexivity|].
  split; [reflexivity|].
  intros now Hnow.
  apply (reserve_job_serves now s' (revive t j) Hu' Hin').
  simpl. apply Z.leb_le. exact Hnow.
Qed.

Lemma retried_job_is_served_witness :
  unique_ids [dead_row] = true /\
  get_job "a" [dead_row] = Some dead_row /\
  state dead_row = dead /\
  exists j', get_job "a" (retry_dead_job 100 "a" [dead_row]) = Some j' /\
             attempts j' = 0 /\ created_at j' = created_at dead_row.
Proof.
  split; [reflexivity|]. split; [reflexivity|]. split; [reflexivity|].
  destruct (retried_job_is_served 100 "a" [dead_row] dead_row
              eq_refl eq_refl eq_refl) as [j' [Hj' [Ha [Hc _]]]].
  exists j'. repeat split; assumption.
Defined.

(** ** Generated ids *)

Lemma show_int_inj x y : show_int x = show_int y -> x = y.
Proof.
  unfold show_int. intro Heq.
  assert (forall z, NilZero.int_of_string (NilZero.string_of_int (Z.to_int z))
                    = Some (Z.to_int z)) as Hback.
  { intro z. apply NilZero.isi; destruct z; simpl; try discriminate;
      intro E; injection E as E; exact (Unsigned.to_uint_nonnil _ E). }
  pose proof (Hback x) as Hx. rewrite Heq, Hback in Hx.
  injection Hx as Hx.
  rewrite <- (DecimalZ.of_to x), <- (DecimalZ.of_to y), Hx. reflexivity.
Qed.

Lemma enqueue_generated_id `{PyRuntime} cfg now p s s' j :
  p_id p = None -> enqueue cfg now p s = (s', inr j) ->
  id j = ("job-" ++ show_int (timestamp_ms now))%string /\ s' = s ++ [j].
Proof.
  intros Hid He.
  destruct (p_command p) as [cmd|] eqn:Hcmd;
    [|unfold enqueue in He; rewrite Hcmd in He; discriminate He].
  destruct (insertable cfg p) eqn:Hok;
    [|rewrite (enqueue_binds cfg now p s cmd Hcmd Hok) in He;
      discriminate He].
  rewrite (enqueue_bound cfg now p s cmd Hcmd Hok) in He.
  destruct (existsb _ s); [discriminate|].
  injection He as <- <-. unfold chosen_id. rewrite Hid. split; reflexivity.
Qed.

(** X23.  Ids that [enqueue] makes up are the millisecond stamp of the
    call after "job-": two payloads without id get the same id exactly
    when their calls have the same stamp.  A second such call in the same
    millisecond therefore raises and stores nothing: on the insert, when
    its parameters can be bound, and on binding them otherwise.  A call
    with another stamp whose parameters can be bound, if that id is not
    taken, stores a job under a different id. *)
Theorem generated_ids_collide `{PyRuntime} cfg cfg' now now' p p' cmd s s1 j :
  p_id p = None -> p_id p' = None -> p_command p' = Some cmd ->
  enqueue cfg now p s = (s1, inr j) ->
  (timestamp_ms now' = timestamp_ms now ->
     (exists e, enqueue cfg' now' p' s1 = (s1, inl e)) /\
     (insertable cfg' p' = true ->
      enqueue cfg' now' p' s1 = (s1, inl IntegrityError))) /\
  (timestamp_ms now' <> timestamp_ms now ->
     insertable cfg' p' = true ->
     ~ In ("job-" ++ show_int (timestamp_ms now'))%string (ids s) ->
     exists j', enqueue cfg' now' p' s1 = (s1 ++ [j'], inr j') /\
                id j' <> id j).
Proof.
  intros Hp Hp' Hcmd He.
  destruct (enqueue_generated_id cfg now p s s1 j Hp He) as [Hid ->].
  assert (chosen_id now' p' = ("job-" ++ show_int (timestamp_ms now'))%string)
    as Hchosen by (unfold chosen_id; rewrite Hp'; reflexivity).
  split.
  - intro Hsame.
    assert (insertable cfg' p' = true ->
            enqueue cfg' now' p' (s ++ [j]) = (s ++ [j], inl IntegrityError))
      as Hdup.
    { intro Hok.
      rewrite (enqueue_bound cfg' now' p' (s ++ [j]) cmd Hcmd Hok).
      rewrite Hchosen, Hsame, <- Hid.
      assert (existsb (has_id (id j)) (s ++ [j]) = true) as ->;
        [|reflexivity].
      apply existsb_has_id. unfold ids. rewrite map_app.
      apply in_or_app. right. left. reflexivity. }
    split; [|exact Hdup].
    destruct (insertable cfg' p') eqn:Hok.
    + eexists. apply Hdup. reflexivity.
    + rewrite (enqueue_binds cfg' now' p' (s ++ [j]) cmd Hcmd Hok).
      eexists. reflexivity.
  - intros Hdiff Hok Hfree.
    rewrite (enqueue_bound cfg' now' p' (s ++ [j]) cmd Hcmd Hok).
    rewrite Hchosen.
    assert (existsb (has_id ("job-" ++ show_int (timestamp_ms now'))%string)
              (s ++ [j]) = false) as ->.
    { destruct (existsb _ (s ++ [j])) eqn:E; [|reflexivity].
      exfalso. apply existsb_has_id in E. unfold ids in E.
      rewrite map_app in E. apply in_app_or in E.
      destruct E as [E|[E|[]]]; [exact (Hfree E)|].
      rewrite Hid in E. injection E as E.
      apply show_int_inj in E. congruence. }
    eexists. split; [reflexivity|]. simpl. rewrite Hid.
    intro E. injection E as E. apply show_int_inj in E. congruence.
Qed.

Lemma generated_ids_collide_witness :
  p_id bare_payload = None /\
  p_command bare_payload = Some "ls"%string /\
  exists s1 j,
    @enqueue sample_runtime [] 1234567 bare_payload [] = (s1, inr j) /\
    @enqueue sample_runtime [] 1234999 bare_payload s1
    = (s1, inl IntegrityError).
Proof.
  split; [reflexivity|]. split; [reflexivity|].
  eexists. eexists. split; [reflexivity|].
  exact (proj2 (proj1 (@generated_ids_collide sample_runtime [] []
                         1234567 1234999
                         bare_payload bare_payload "ls" [] _ _
                         eq_refl eq_refl eq_refl eq_refl) eq_refl) eq_refl).
Defined.

(** ** mark_failed keeps to its job *)

(** X6.  [mark_failed] rewrites the job it is given and nothing else,
    and that only when it goes through.  Whether it does is decided
    before the table is looked at, by the attempt count, the message, the
    configured base and the clock: a call that does not go through raises
    and leaves the table as it was, whether the table holds the id or
    not.  A call that goes through returns normally; on an id the table
    does not hold it leaves the table unchanged, and the job it rewrites
    gets a last_error, the empty string when the message is absent or
    empty, and keeps its immutable columns.  Either way every job with
    another id reads as before. *)
Theorem mark_failed_keeps_to_its_job `{PyRuntime} cfg now i a m e s :
  (forall k, k <> i ->
     get_job k (fst (mark_failed cfg now i a m e s)) = get_job k s) /\
  (storable cfg now a m e = false ->
     exists ex, mark_failed cfg now i a m e s = (s, inl ex)) /\
  (storable cfg now a m e = true ->
     snd (mark_failed cfg now i a m e s) = inr tt /\
     (get_job i s = None -> fst (mark_failed cfg now i a m e s) = s) /\
     (forall j, get_job i s = Some j ->
        exists j',
          get_job i (fst (mark_failed cfg now i a m e s)) = Some j' /\
          immutable_fields j' = immutable_fields j /\
          updated_at j' = now /\
          last_error j' <> None /\
          (e = None \/ e = Some [] -> last_error j' = Some []))).
Proof.
  split; [|split].
  - intros k Hk. rewrite mark_failed_rows.
    set (f := written_row cfg now a m e).
    change (map _ s)
      with (fst (sql_update
                   (fun j => storable cfg now a m e && has_id i j) f s)).
    apply get_job_update_other with (i := i); [reflexivity | | exact Hk].
    intros r Hr. apply andb_prop in Hr as [_ Hr]. apply has_id_true, Hr.
  - apply mark_failed_raises.
  - intro Hok. split; [|split].
    + rewrite (mark_failed_returns cfg now i a m e s Hok). reflexivity.
    + intro Hnone. rewrite mark_failed_rows. apply map_unchanged.
      intros j Hj. destruct (has_id i j) eqn:E;
        [|rewrite andb_false_r; reflexivity].
      exfalso. apply get_job_none in Hnone. apply Hnone.
      apply has_id_true in E. rewrite <- E. unfold ids. apply in_map.
      exact Hj.
    + intros j Hj. rewrite (get_job_mark_failed cfg now i a m e s j Hok Hj).
      eexists. split; [reflexivity|]. simpl.
      repeat split; try discriminate.
      intros [->| ->]; reflexivity.
Qed.

Lemma mark_failed_keeps_to_its_job_witness :
  @storable sample_runtime [] 100 37 50 None = false /\
  (exists ex,
     @mark_failed sample_runtime [] 100 "w" 37 50 None [worn_row]
     = ([worn_row], inl ex)) /\
  (exists ex,
     @mark_failed sample_runtime [] 100 "none" 37 50 None [worn_row]
     = ([worn_row], inl ex)).
Proof.
  split; [reflexivity|]. split.
  - exact (proj1 (proj2 (@mark_failed_keeps_to_its_job sample_runtime []
                           100 "w" 37 50 None [worn_row])) eq_refl).
  - exact (proj1 (proj2 (@mark_failed_keeps_to_its_job sample_runtime []
                           100 "none" 37 50 None [worn_row])) eq_refl).
Defined.

(** ** What a call does to the counts of get_status *)

Lemma count_state_cons st j s :
  count_state st (j :: s) = (tally st (state j) + count_state st s)%nat.
Proof.
  unfold count_state, tally. simpl.
  assert (job_state_eqb (state j) st = job_state_eqb st (state j)) as ->
      by (destruct (state j), st; reflexivity).
  destruct (job_state_eqb st (state j)); reflexivity.
Qed.

(** Rewriting the one row that carries an id moves one unit from the count
    of its old state to the count of its new one. *)
Lemma count_state_rewrite st (f : job -> job) k s :
  NoDup (ids s) -> In k s ->
  (count_state st (map (fun j => if has_id (id k) j then f j else j) s)
   + tally st (state k))%nat
  = (count_state st s + tally st (state (f k)))%nat.
Proof.
  induction s as [|j s IH]; [contradiction|].
  intros Hnd Hin. inversion Hnd as [|? ? Hfresh Hnd']; subst.
  simpl map. rewrite !count_state_cons. destruct Hin as [->|Hin].
  - assert (has_id (id k) k = true) as -> by (apply has_id_true; reflexivity).
    rewrite map_unchanged; [lia|].
    intros r Hr. assert (has_id (id k) r = false) as ->; [|reflexivity].
    apply has_id_false. intro Heq. apply Hfresh. rewrite <- Heq.
    unfold ids. apply in_map. exact Hr.
  - assert (has_id (id k) j = false) as ->.
    { apply has_id_false. intro Heq. apply Hfresh. rewrite Heq.
      unfold ids. apply in_map. exact Hin. }
    specialize (IH Hnd' Hin). lia.
Qed.

Lemma count_state_by_id st i (f : job -> job) s :
  unique_ids s = true ->
  exists source target,
    (count_state st (map (fun j => if has_id i j then f j else j) s)
     + tally st source)%nat
    = (count_state st s + tally st target)%nat /\
    (get_job i s = None -> source = target) /\
    (forall k, get_job i s = Some k ->
               source = state k /\ target = state (f k)).
Proof.
  intro Hu. destruct (get_job i s) as [k|] eqn:Hk.
  - destruct (get_job_in _ _ _ Hk) as [Hin Hid]. subst i.
    exists (state k), (state (f k)). split; [|split].
    + apply count_state_rewrite; [apply unique_NoDup; exact Hu | exact Hin].
    + discriminate.
    + intros k' E. injection E as <-. split; reflexivity.
  - exists pending, pending. split; [|split].
    + rewrite map_unchanged; [reflexivity|].
      intros j Hj. assert (has_id i j = false) as ->; [|reflexivity].
      apply has_id_false. intros <-. apply get_job_none in Hk.
      apply Hk. unfold ids. apply in_map. exact Hj.
    + reflexivity.
    + discriminate.
Qed.

(** X24.  What one call does to the job counts of [get_status], on a
    table with unique ids: [reserve_job], [mark_completed], [mark_failed]
    and [retry_dead_job] move at most one job, from the count of one state
    to the count of another, and leave the total alone; an [enqueue] that
    stores a job adds one to [pending], and one that raises changes no
    count. *)
Theorem a_call_moves_one_job `{PyRuntime} cfg now o s :
  unique_ids s = true ->
  match o with
  | Enqueue p =>
      (forall e, snd (enqueue cfg now p s) = inl e ->
         forall st, count_state st (step cfg now o s) = count_state st s) /\
      (forall j, snd (enqueue cfg now p s) = inr j ->
         forall st, count_state st (step cfg now o s)
                    = (count_state st s + tally st pending)%nat)
  | _ =>
      exists source target,
        (forall st,
           (count_state st (step cfg now o s) + tally st source)%nat
           = (count_state st s + tally st target)%nat) /\
        List.length (step cfg now o s) = List.length s
  end.
Proof.
  intro Hu.
  assert (forall i (f : job -> job),
            exists source target,
              (forall st,
                 (count_state st
                    (map (fun j => if has_id i j then f j else j) s)
                  + tally st source)%nat
                 = (count_state st s + tally st target)%nat) /\
              List.length (map (fun j => if has_id i j then f j else j) s)
              = List.length s) as Hone.
  { intros i f. destruct (get_job i s) as [k|] eqn:Hk.
    - exists (state k), (state (f k)). split; [|apply length_map].
      intro st. destruct (count_state_by_id st i f s Hu)
        as [src [tgt [Hc [_ Hsome]]]].
      destruct (Hsome k Hk) as [-> ->]. exact Hc.
    - exists pending, pending. split; [|apply length_map].
      intro st. destruct (count_state_by_id st i f s Hu)
        as [src [tgt [Hc [Hnone _]]]].
      rewrite (Hnone Hk) in Hc. lia. }
  destruct o as [p| |i|i a m e|i].
  - simpl step.
    destruct (enqueue_cases cfg now p s)
      as [[e E]|[k [E [_ [Hst _]]]]]; rewrite E; simpl; split;
      try discriminate; try reflexivity.
    intros j _ st. unfold count_state. rewrite filter_app, length_app.
    simpl. rewrite Hst. unfold tally.
    destruct st; reflexivity.
  - simpl step.
    destruct (sql_select_first (runnable now) s) as [k|] eqn:Hk.
    + rewrite (reserve_job_rows_some now s k Hk). apply Hone.
    + rewrite (reserve_job_none now s Hk). simpl.
      exists pending, pending. split; reflexivity.
  - simpl step. rewrite mark_completed_rows. apply Hone.
  - simpl step. destruct (storable cfg now a m e) eqn:Hok.
    + rewrite (mark_failed_returns cfg now i a m e s Hok). apply Hone.
    + destruct (mark_failed_raises cfg now i a m e s Hok) as [ex ->].
      exists pending, pending. split; reflexivity.
  - simpl step. rewrite retry_dead_job_rows.
    destruct (Hone i (fun j => if job_state_eqb (state j) dead
                               then revive now j else j))
      as [src [tgt [Hc Hl]]].
    assert (map (fun j => if has_id i j && job_state_eqb (state j) dead
                          then revive now j else j) s
            = map (fun j => if has_id i j
                            then (if job_state_eqb (state j) dead
                                  then revive now j else j)
                            else j) s) as ->.
    { apply map_ext. intro j. destruct (has_id i j); reflexivity. }
    exists src, tgt. split; assumption.
Qed.

Lemma a_call_moves_one_job_witness :
  unique_ids two_pending = true /\
  exists source target,
    (forall st,
       (count_state st (@step sample_runtime [] 100 Reserve two_pending)
        + tally st source)%nat
       = (count_state st two_pending + tally st target)%nat) /\
    List.length (@step sample_runtime [] 100 Reserve two_pending)
    = List.length two_pending.
Proof.
  split; [reflexivity|].
  exact (@a_call_moves_one_job sample_runtime [] 100 Reserve two_pending
           eq_refl).
Defined.

(** ** One turn of the worker loop *)

(** The [try] block and its handlers, by the call that reports the job:
    the table is rewritten at the job's row, or a second exception
    leaves with the table as it was. *)
Lemma settle_reported `{PyRuntime} t r s who :
  unique_ids s = true -> In r s ->
  reported_by t r = Some who ->
  settle t r s
  = (map (fun j => if has_id (id r) j then outcome_row t who r else j) s,
     inr tt).
Proof.
  intros Hu Hr.
  assert (forall f : job -> job,
            map (fun j => if has_id (id r) j then f j else j) s
            = map (fun j => if has_id (id r) j then f r else j) s) as Hown.
  { intro f. apply map_ext_in. intros j Hj.
    destruct (has_id (id r) j) eqn:E; [|reflexivity].
    apply has_id_true in E.
    rewrite (unique_ids_inj s j r Hu Hj Hr E). reflexivity. }
  unfold settle, reported_by, outcome_row, failure_row. cbv beta zeta.
  destruct (result t) as [returncode|message].
  - destruct (returncode =? 0) eqn:Hrc.
    + intro E. injection E as <-. rewrite mark_completed_rows, Hown.
      reflexivity.
    + destruct (storable (config t) _ _ _ _) eqn:H1.
      * intro E. injection E as <-.
        rewrite (mark_failed_returns _ _ _ _ _ _ _ H1), Hown. reflexivity.
      * destruct (mark_failed_raises _ _ (id r) _ _ _ s H1) as [ex ->].
        destruct (storable (handler_config t) _ _ _ _) eqn:H2;
          [|discriminate].
        intro E. injection E as <-.
        rewrite (mark_failed_returns _ _ _ _ _ _ _ H2), Hown. reflexivity.
  - destruct (storable (config t) _ _ _ _) eqn:H1; [|discriminate].
    intro E. injection E as <-.
    rewrite (mark_failed_returns _ _ _ _ _ _ _ H1), Hown. reflexivity.
Qed.

Lemma settle_unreported `{PyRuntime} t r s :
  reported_by t r = None -> exists ex, settle t r s = (s, inl ex).
Proof.
  unfold settle, reported_by. cbv beta zeta.
  destruct (result t) as [returncode|message].
  - destruct (returncode =? 0); [discriminate|].
    destruct (storable (config t) _ _ _ _) eqn:H1; [discriminate|].
    destruct (mark_failed_raises _ _ (id r) _ _ _ s H1) as [ex ->].
    destruct (storable (handler_config t) _ _ _ _) eqn:H2; [discriminate|].
    intros _. apply mark_failed_raises. exact H2.
  - destruct (storable (config t) _ _ _ _) eqn:H1; [discriminate|].
    intros _. apply mark_failed_raises. exact H1.
Qed.

(** A turn made on a fresh clock reading. *)
Lemma turn_some `{PyRuntime} pid t st k :
  unique_ids (jobs st) = true ->
  unstamped (reserve_at t) (jobs st) ->
  sql_select_first (runnable (reserve_at t)) (jobs st) = Some k ->
  jobs (fst (turn pid t st))
  = map (fun j => if has_id (id k) j
                  then left_row t (claim (reserve_at t) k) else j)
      (jobs st) /\
  match reported_by t (claim (reserve_at t) k) with
  | Some _ => snd (turn pid t st) = inr tt
  | None => exists ex, snd (turn pid t st) = inl ex
  end.
Proof.
  intros Hu Hfresh Hk. unfold turn, left_row.
  rewrite (reserve_job_fresh_tick _ _ k Hu Hfresh Hk).
  pose proof (sql_select_first_some _ _ _ Hk) as [Hin _].
  set (claimed := claim (reserve_at t) k).
  set (s1 := map (fun j => if has_id (id k) j
                           then claim (reserve_at t) j else j) (jobs st)).
  assert (unique_ids s1 = true) as Hu1.
  { unfold unique_ids, s1. rewrite ids_map; [exact Hu|].
    intro j. destruct (has_id (id k) j); reflexivity. }
  assert (In claimed s1) as Hin1.
  { unfold s1. apply in_map_iff. exists k. split; [|exact Hin].
    assert (has_id (id k) k = true) as -> by (apply has_id_true; reflexivity).
    reflexivity. }
  destruct (reported_by t claimed) as [who|] eqn:Hwho.
  - rewrite (settle_reported t claimed s1 who Hu1 Hin1 Hwho).
    split; [|reflexivity]. simpl. unfold s1. rewrite map_map.
    apply map_ext. intro j.
    destruct (has_id (id k) j) eqn:Hid.
    + change (has_id (id k) (claim (reserve_at t) j)) with (has_id (id k) j).
      rewrite Hid. reflexivity.
    + rewrite Hid. reflexivity.
  - destruct (settle_unreported t claimed s1 Hwho) as [ex ->].
    split; [|exists ex; reflexivity]. simpl. unfold s1.
    apply map_ext_in. intros j Hj.
    destruct (has_id (id k) j) eqn:Hid; [|reflexivity].
    apply has_id_true in Hid.
    rewrite (unique_ids_inj (jobs st) j k Hu Hj Hin Hid). reflexivity.
Qed.

Lemma turn_none `{PyRuntime} pid t st :
  sql_select_first (runnable (reserve_at t)) (jobs st) = None ->
  turn pid t st
  = ({| jobs := jobs st;
        workers := update_heartbeat (heartbeat_at t) pid (workers st) |},
     inr tt).
Proof.
  intro Hk. unfold turn. rewrite (reserve_job_none _ _ Hk). reflexivity.
Qed.



Lemma outcome_row_settled `{PyRuntime} t who j :
  id (outcome_row t who j) = id j /\
  immutable_fields (outcome_row t who j) = immutable_fields j /\
  in_flight (outcome_row t who j) = false.
Proof.
  unfold outcome_row, failure_row, written_row, in_flight.
  destruct who, (result t) as [returncode|message]; simpl;
    try (destruct (returncode =? 0); simpl; [repeat split|]);
    destruct (attempts j + 1 >? max_retries j); repeat split.
Qed.

Lemma left_row_id `{PyRuntime} t j :
  id (left_row t j) = id j /\
  immutable_fields (left_row t j) = immutable_fields j.
Proof.
  unfold left_row. destruct (reported_by t j) as [who|];
    [|split; reflexivity].
  destruct (outcome_row_settled t who j) as [Hid [Himm _]].
  split; assumption.
Qed.



(** ** The worker loop *)

Lemma filter_map_fixed {A} (c : A -> bool) (g : A -> A) (l : list A) :
  (forall x, In x l -> c (g x) = c x /\ (c x = true -> g x = x)) ->
  filter c (map g l) = filter c l.
Proof.
  intro Hg. induction l as [|x l IH]; simpl; [reflexivity|].
  destruct (Hg x (or_introl eq_refl)) as [Hc Hfix]. rewrite Hc.
  rewrite IH by (intros y Hy; apply Hg; right; exact Hy).
  destruct (c x); [rewrite Hfix by reflexivity|]; reflexivity.
Qed.

Lemma runnable_not_in_flight now j :
  runnable now j = true -> in_flight j = false.
Proof.
  unfold runnable, in_flight. destruct (state j); try discriminate; reflexivity.
Qed.

Lemma left_row_budget `{PyRuntime} t now k :
  runnable now k = true -> budget_kept k ->
  budget_kept (left_row t (claim now k)).
Proof.
  intros Hrun [Hm Hb].
  assert (attempts k <= max_retries k) as Ha.
  { unfold runnable in Hrun. destruct (state k); try discriminate; exact Hb. }
  assert (forall cfg now' message,
            budget_kept (failure_row cfg now' message (claim now k)))
    as Hfail.
  { intros cfg now' message.
    unfold budget_kept, failure_row, written_row. simpl.
    split; [exact Hm|].
    destruct (attempts k + 1 >? max_retries k) eqn:Hgt.
    - apply Z.gtb_lt in Hgt. lia.
    - rewrite Z.gtb_ltb in Hgt. apply Z.ltb_ge in Hgt. lia. }
  unfold left_row.
  destruct (reported_by t (claim now k)) as [who|];
    [|split; [exact Hm | exact Ha]].
  unfold outcome_row.
  destruct who; destruct (result t) as [returncode|message];
    try apply Hfail.
  destruct (returncode =? 0); [split; [exact Hm | exact Ha] | apply Hfail].
Qed.

(** What a turn on a fresh clock reading keeps, and what it does to the
    rows in [processing]: nothing when it ends normally, and one more,
    the job it claimed, when it ends with an exception. *)
Lemma turn_keeps `{PyRuntime} pid t st :
  unique_ids (jobs st) = true ->
  unstamped (reserve_at t) (jobs st) ->
  unique_ids (jobs (fst (turn pid t st))) = true /\
  map immutable_fields (jobs (fst (turn pid t st)))
  = map immutable_fields (jobs st) /\
  (Forall budget_kept (jobs st) ->
   Forall budget_kept (jobs (fst (turn pid t st)))) /\
  match snd (turn pid t st) with
  | inr _ =>
      filter in_flight (jobs (fst (turn pid t st)))
      = filter in_flight (jobs st)
  | inl _ =>
      count_state processing (jobs (fst (turn pid t st)))
      = S (count_state processing (jobs st)) /\
      forall j, In j (jobs st) -> in_flight j = true ->
                In j (jobs (fst (turn pid t st)))
  end.
Proof.
  intros Hu Hfresh.
  destruct (sql_select_first (runnable (reserve_at t)) (jobs st)) as [k|]
    eqn:Hk.
  - pose proof (sql_select_first_some _ _ _ Hk) as [Hin [Hrun _]].
    destruct (turn_some pid t st k Hu Hfresh Hk) as [Hjobs Hend].
    rewrite Hjobs.
    set (claimed := claim (reserve_at t) k) in *.
    destruct (left_row_id t claimed) as [Hid Himm].
    assert (forall j, In j (jobs st) -> has_id (id k) j = true -> j = k)
      as Hown.
    { intros j Hj E. apply has_id_true in E.
      apply (unique_ids_inj (jobs st)); assumption. }
    split; [|split; [|split]].
    + unfold unique_ids. rewrite ids_map; [exact Hu|].
      intro j. destruct (has_id (id k) j) eqn:E; [|reflexivity].
      apply has_id_true in E. rewrite Hid. simpl. congruence.
    + rewrite map_map. apply map_ext_in. intros j Hj.
      destruct (has_id (id k) j) eqn:E; [|reflexivity].
      rewrite (Hown j Hj E), Himm. reflexivity.
    + intro Hb. apply Forall_forall. intros r Hr.
      apply in_map_iff in Hr. destruct Hr as [j [<- Hj]].
      rewrite Forall_forall in Hb.
      destruct (has_id (id k) j) eqn:E; [|apply Hb; exact Hj].
      apply left_row_budget; [exact Hrun | apply Hb; exact Hin].
    + unfold left_row.
      destruct (reported_by t claimed) as [who|] eqn:Hwho.
      * rewrite Hend. apply filter_map_fixed. intros j Hj.
        destruct (has_id (id k) j) eqn:E; [|split; reflexivity].
        rewrite (Hown j Hj E).
        rewrite (proj2 (proj2 (outcome_row_settled t who claimed))).
        rewrite (runnable_not_in_flight _ _ Hrun).
        split; [reflexivity | discriminate].
      * destruct Hend as [ex ->]. split.
        -- pose proof (count_state_rewrite processing (fun _ => claimed) k
                         (jobs st) (proj1 (unique_NoDup _) Hu) Hin) as Hc.
           pose proof (runnable_not_in_flight _ _ Hrun) as Hnot.
           unfold in_flight in Hnot. unfold tally in Hc.
           assert (job_state_eqb processing (state k) = false) as Hnot'
               by (destruct (state k); try discriminate; reflexivity).
           rewrite Hnot' in Hc. simpl in Hc. lia.
        -- intros j Hj Hfl. apply in_map_iff. exists j.
           split; [|exact Hj].
           destruct (has_id (id k) j) eqn:E; [|reflexivity].
           rewrite (Hown j Hj E), (runnable_not_in_flight _ _ Hrun) in Hfl.
           discriminate Hfl.
  - rewrite (turn_none pid t st Hk). simpl. repeat split; trivial.
Qed.

Lemma unstamped_carried now s s' :
  filter in_flight s' = filter in_flight s ->
  unstamped now s -> unstamped now s'.
Proof.
  intros Hsame Hfresh j Hj Hst.
  assert (In j (filter in_flight s')) as Hin.
  { apply filter_In. split; [exact Hj|]. unfold in_flight.
    rewrite Hst. reflexivity. }
  rewrite Hsame in Hin. apply filter_In in Hin.
  apply Hfresh; [apply Hin | exact Hst].
Qed.

Lemma poll_keeps `{PyRuntime} pid ticks st :
  unique_ids (jobs st) = true ->
  (forall t, In t ticks -> unstamped (reserve_at t) (jobs st)) ->
  unique_ids (jobs (fst (poll pid ticks st))) = true /\
  map immutable_fields (jobs (fst (poll pid ticks st)))
  = map immutable_fields (jobs st) /\
  (Forall budget_kept (jobs st) ->
   Forall budget_kept (jobs (fst (poll pid ticks st)))) /\
  match snd (poll pid ticks st) with
  | Uncaught _ =>
      count_state processing (jobs (fst (poll pid ticks st)))
      = S (count_state processing (jobs st)) /\
      forall j, In j (jobs st) -> in_flight j = true ->
                In j (jobs (fst (poll pid ticks st)))
  | _ =>
      filter in_flight (jobs (fst (poll pid ticks st)))
      = filter in_flight (jobs st)
  end.
Proof.
  revert st. induction ticks as [|t ticks IH]; intros st Hu Hfresh; simpl.
  - repeat split; trivial.
  - destruct (stop_file_exists t); simpl; [repeat split; trivial|].
    destruct (turn_keeps pid t st Hu (Hfresh t (or_introl eq_refl)))
      as [Hu1 [Himm1 [Hb1 Hfl1]]].
    destruct (turn pid t st) as [st1 [ex|[]]]; simpl in *.
    + split; [exact Hu1|]. split; [exact Himm1|]. split; [exact Hb1|].
      exact Hfl1.
    + destruct (IH st1 Hu1) as [Hu2 [Himm2 [Hb2 Hfl2]]].
      { intros t' Ht'. apply (unstamped_carried _ (jobs st)); [exact Hfl1|].
        apply Hfresh. right. exact Ht'. }
      split; [exact Hu2|]. split; [congruence|].
      split; [intro Hb; apply Hb2, Hb1, Hb|].
      destruct (snd (poll pid ticks st1)); try congruence.
      destruct Hfl2 as [Hcount Hkept]. split.
      * rewrite Hcount. unfold count_state. f_equal. f_equal. exact Hfl1.
      * intros j Hj Hfl. apply Hkept; [|exact Hfl].
        assert (In j (filter in_flight (jobs st))) as Hin
            by (apply filter_In; split; assumption).
        rewrite <- Hfl1 in Hin. apply filter_In in Hin. apply Hin.
Qed.

Lemma worker_loop_jobs `{PyRuntime} pid name registered_at ticks st :
  jobs (final_state (worker_loop pid name registered_at ticks st))
  = jobs (fst (poll pid ticks
                 {| jobs := jobs st;
                    workers := register_worker registered_at pid name
                                 (workers st) |})).
Proof.
  unfold worker_loop.
  destruct (poll pid ticks _) as [st1 [| |ex]]; reflexivity.
Qed.

Lemma worker_loop_crashed `{PyRuntime} pid name registered_at ticks st :
  (exists e st', worker_loop pid name registered_at ticks st = Crashed e st')
  <-> exists e,
        snd (poll pid ticks
               {| jobs := jobs st;
                  workers := register_worker registered_at pid name
                               (workers st) |}) = Uncaught e.
Proof.
  unfold worker_loop.
  destruct (poll pid ticks _) as [st1 [| |ex]]; simpl; split;
    try (intros [e [st' E]]; discriminate E);
    try (intros [e E]; discriminate E).
  - intros _. exists ex. reflexivity.
  - intros _. eexists. eexists. reflexivity.
Qed.



(** X17.  Under the worker loop the retry budget holds: if every job has
    attempts within its max_retries, and exactly one more when [dead],
    then so it is after any number of turns made on fresh clock readings,
    however the loop ends.  A job is thus run at most max_retries + 1
    times before it is [dead], and a job the loop made [dead] has failed
    exactly that often. *)
Theorem worker_loop_keeps_budget `{PyRuntime} pid name registered_at
    ticks st :
  unique_ids (jobs st) = true ->
  (forall t, In t ticks -> unstamped (reserve_at t) (jobs st)) ->
  Forall budget_kept (jobs st) ->
  Forall budget_kept
    (jobs (final_state (worker_loop pid name registered_at ticks st))).
Proof.
  intros Hu Hfresh Hb. rewrite worker_loop_jobs.
  exact (proj1 (proj2 (proj2
           (poll_keeps pid ticks
              {| jobs := jobs st;
                 workers := register_worker registered_at pid name
                              (workers st) |} Hu Hfresh))) Hb).
Qed.

Lemma worker_loop_keeps_budget_witness :
  unique_ids (jobs sample_system) = true /\
  (forall t, In t [failing_tick; stop_tick] ->
             unstamped (reserve_at t) (jobs sample_system)) /\
  Forall budget_kept (jobs sample_system) /\
  Forall budget_kept
    (jobs (final_state (@worker_loop sample_runtime 8 "worker-2" 90
                          [failing_tick; stop_tick] sample_system))).
Proof.
  assert (forall t, In t [failing_tick; stop_tick] ->
                    unstamped (reserve_at t) (jobs sample_system)) as Hfresh.
  { intros t _ j [<-|[<-|[]]] Hst; discriminate Hst. }
  assert (Forall budget_kept (jobs sample_system)) as Hb.
  { repeat constructor; simpl; lia. }
  split; [reflexivity|]. split; [exact Hfresh|]. split; [exact Hb|].
  exact (@worker_loop_keeps_budget sample_runtime 8 "worker-2" 90
           [failing_tick; stop_tick] sample_system eq_refl Hfresh Hb).
Defined.

(** ** Leaving the loop *)








